(** * tinytop: piece authority tokens and the real-time sync handlers

    A shallow embedding of the two server variants of the repository:

    - the room server of [index.js]: the in-memory [tokenAuthority] object,
      the file-backed [dataStore] of rooms and the socket handlers that close
      over a per-connection [currentRoom];
    - the single-board server of [src/socket/handlers.js]: the Redis-backed
      [tokenService], the [stateManager]/[pieceManager] pair of
      [services/game] and the socket handlers built on them.

    Modelling conventions.  Piece ids, socket ids and room codes are strings
    (piece ids are assumed not to collide with property names inherited from
    [Object.prototype]); [Date.now()] is an integer number of milliseconds,
    read once per handler run; coordinates are opaque numbers that the server
    only copies; a JS object used as a dictionary is a [gmap]; an array is a
    [list]; every handler runs to completion without another handler
    interleaving with it, and returns the new server state together with the
    list of emissions it made, in order. *)

From Stdlib Require Import ZArith Lia.
From stdpp Require Import base option list gmap strings pretty.

Local Open Scope Z_scope.

(** ** The release loop shared by both disconnect handlers

    Both servers walk a list of piece ids and, for each id on which the
    leaving connection still has a hold at that moment, release it and log
    it.  [sweep] is that loop over an arbitrary state. *)

Fixpoint sweep {S K : Type} (holds : S -> K -> bool) (release : S -> K -> S)
    (s : S) (ks : list K) : S * list K :=
  match ks with
  | [] => (s, [])
  | k :: ks' =>
      if holds s k
      then let r := sweep holds release (release s k) ks' in (r.1, k :: r.2)
      else sweep holds release s ks'
  end.

(** ** The in-memory token authority of [index.js] *)

Module TokenAuthority.

(** A token as [grantToken] stores it: [{ owner, timestamp }]. *)
Record Token : Type := mkToken { owner : string; timestamp : Z }.

(** [tokenAuthority.tokens], keyed by piece id. *)
Abbreviation Tokens := (gmap string Token).

(** The literal [30000] of [hasAuthority], in milliseconds. *)
Definition TTL : Z := 30000.

(** [grantToken(pieceId, playerId)]: overwrite and return [true]. *)
Definition grantToken (tokens : Tokens) (now : Z) (pieceId playerId : string)
  : bool * Tokens :=
  (true, <[pieceId := mkToken playerId now]> tokens).

(** [hasAuthority(pieceId, playerId)]: a missing token gives [false]; a
    token older than [30000] ms is deleted and gives [false]; otherwise the
    owner is compared with the caller. *)
Definition hasAuthority (tokens : Tokens) (now : Z) (pieceId playerId : string)
  : bool * Tokens :=
  match tokens !! pieceId with
  | None => (false, tokens)
  | Some token =>
      if now - timestamp token >? 30000
      then (false, delete pieceId tokens)
      else (bool_decide (owner token = playerId), tokens)
  end.

(** [releaseToken(pieceId, playerId)]: delete the token when the caller
    owns it; the clock is not consulted. *)
Definition releaseToken (tokens : Tokens) (pieceId playerId : string)
  : bool * Tokens :=
  match tokens !! pieceId with
  | None => (false, tokens)
  | Some token =>
      if bool_decide (owner token = playerId)
      then (true, delete pieceId tokens)
      else (false, tokens)
  end.

(** The token map holds an entry for the piece whose owner is the given
    connection, expired or not. *)
Definition owns (tokens : Tokens) (playerId pieceId : string) : bool :=
  match tokens !! pieceId with
  | Some token => bool_decide (owner token = playerId)
  | None => false
  end.

(** The reading of "check" in which a token is live strictly before the
    TTL has elapsed: the statement compared with [hasAuthority] below. *)
Definition check_strict_statement
    (tokens : Tokens) (now : Z) (p c : string) : Prop :=
  ((hasAuthority tokens now p c).1 = true <->
     exists t, tokens !! p = Some t /\ owner t = c /\ now - timestamp t < TTL)
  /\ (forall t, tokens !! p = Some t -> ~ now - timestamp t < TTL ->
        hasAuthority tokens now p c = (false, delete p tokens)).

(** The reading of "release" that succeeds only on a token that is both
    owned by the caller and not expired at [now], and is a no-op in every
    other case. *)
Definition live_owned (tokens : Tokens) (now : Z) (p c : string) : Prop :=
  exists t, tokens !! p = Some t /\ owner t = c /\ now - timestamp t < TTL.

Definition release_live_only_statement
    (tokens : Tokens) (now : Z) (p c : string) : Prop :=
  ((releaseToken tokens p c).1 = true ->
     live_owned tokens now p c
     /\ (releaseToken tokens p c).2 = delete p tokens)
  /\ (~ live_owned tokens now p c ->
      releaseToken tokens p c = (false, tokens)).

End TokenAuthority.

(** ** Pieces and the events on the wire *)

Module Board.

(** A piece as the handlers build it.  [assetUrl] is [None] when the
    client's payload carried none; [createdAt] is only set by the
    single-board server. *)
Record Piece : Type := mkPiece {
  id : string;
  x : Z;
  y : Z;
  assetUrl : option string;
  owner : string;
  createdAt : option Z
}.

(** [const { pieceId, x, y } = data] together with [data.assetUrl]. *)
Record PieceData : Type := mkPieceData {
  pieceId : string;
  dx : Z;
  dy : Z;
  dassetUrl : option string
}.

(** [pieces.findIndex(p => p.id === pieceId)]; [None] stands for [-1]. *)
Definition findIndex (pieces : list Piece) (pid : string) : option nat :=
  fst <$> list_find (fun p => id p = pid) pieces.

(** [pieces.filter(p => p.id !== pieceId)]. *)
Definition without (pieces : list Piece) (pid : string) : list Piece :=
  filter (fun p => id p <> pid) pieces.

(** JavaScript falsiness of a value that is [undefined]/[null] or a
    string. *)
Definition falsy (v : option string) : bool :=
  match v with
  | None => true
  | Some s => bool_decide (s = "")
  end.

End Board.

Module Wire.
Import Board.

(** Server-to-client events with their payloads. *)
Inductive Message : Type :=
| game_state (roomCode : option string) (pieces : list Piece)
| token_granted (pieceId : string)
| token_denied (pieceId : string)
| piece_locked (pieceId playerId : string)
| piece_unlocked (pieceId : string)
| piece_dragged (pieceId : string) (x y : Z) (playerId : string)
| piece_moved (pieceId : string) (x y : Z) (playerId : string)
| piece_added (pieceId : string) (x y : Z) (assetUrl : option string)
    (playerId : string)
| piece_removed (pieceId playerId : string)
| player_joined (playerId : string)
| player_left (playerId : string)
| error (message : string).

(** Who an emission is addressed to. *)
Inductive Target : Type :=
| to_socket (sid : string)              (* socket.emit *)
| to_room_others (room sid : string)    (* socket.to(room).emit *)
| to_room (room : string)               (* io.to(room).emit *)
| to_others (sid : string)              (* socket.broadcast.emit *)
| to_all.                               (* io.emit *)

Abbreviation Emission := (Target * Message)%type.

Definition is_error (m : Message) : bool :=
  match m with error _ => true | _ => false end.

Definition is_piece_moved (m : Message) : bool :=
  match m with piece_moved _ _ _ _ => true | _ => false end.

Definition is_token_denied (m : Message) : bool :=
  match m with token_denied _ => true | _ => false end.

(** No emission of the list is a [token-denied]. *)
Definition never_denied (out : list Emission) : Prop :=
  Forall (fun em => is_token_denied em.2 = false) out.

End Wire.

(** ** The room server of [index.js] *)

Module RoomServer.
Import Board Wire.
Export TokenAuthority.

(** A room record as [POST /api/rooms] creates it and [saveRoom] writes
    it to [room-<roomCode>.json]. *)
Record Game : Type := mkGame {
  roomCode : string;
  pieces : list Piece;
  gameCreatedAt : Z
}.

(** Process state: the token map and the room files on disk. *)
Record Server : Type := mkServer {
  tokens : Tokens;
  rooms : gmap string Game
}.

(** What a handler run reads from its surroundings: the clock and whether
    file reads and writes succeed. *)
Record Env : Type := mkEnv { now : Z; diskOk : bool }.

(** The connection a handler belongs to: [socket.id] and the closure
    variable [currentRoom] ([None] is [null]). *)
Record Conn : Type := mkConn { sid : string; currentRoom : option string }.

(** [dataStore.getRoom]: the parsed file, or [null] when the file is
    missing or cannot be read. *)
Definition getRoom (e : Env) (s : Server) (code : string) : option Game :=
  if diskOk e then rooms s !! code else None.

(** [dataStore.saveRoom]: write the record under its own [roomCode]; a
    failed write is reported by [false] and changes nothing. *)
Definition saveRoom (e : Env) (s : Server) (g : Game) : bool * Server :=
  if diskOk e
  then (true, mkServer (tokens s) (<[roomCode g := g]> (rooms s)))
  else (false, s).

Definition with_tokens (s : Server) (tk : Tokens) : Server :=
  mkServer tk (rooms s).

(** [socket.on('join-room', ...)]. *)
Definition join_room (e : Env) (s : Server) (c : Conn)
    (code : option string) : Conn * list Emission :=
  match code with
  | Some r =>
      if falsy code
      then (c, [(to_socket (sid c), error "Room code is required")])
      else
        let c' := mkConn (sid c) (Some r) in
        match getRoom e s r with
        | None => (c', [(to_socket (sid c), error "Room not found")])
        | Some game =>
            (c', [(to_socket (sid c),
                     game_state (Some (roomCode game)) (pieces game));
                  (to_room_others r (sid c), player_joined (sid c))])
        end
  | None => (c, [(to_socket (sid c), error "Room code is required")])
  end.

(** [socket.on('request-token', ...)]. *)
Definition request_token (e : Env) (s : Server) (c : Conn)
    (pieceId : string) : Server * list Emission :=
  match currentRoom c with
  | Some r =>
      if falsy (currentRoom c)
      then (s, [(to_socket (sid c), error "Not in a room")])
      else
        let '(granted, tk) := grantToken (tokens s) (now e) pieceId (sid c) in
        if granted
        then (with_tokens s tk,
              [(to_socket (sid c), token_granted pieceId);
               (to_room_others r (sid c), piece_locked pieceId (sid c))])
        else (with_tokens s tk, [(to_socket (sid c), token_denied pieceId)])
  | None => (s, [(to_socket (sid c), error "Not in a room")])
  end.

(** [socket.on('release-token', ...)]. *)
Definition release_token (s : Server) (c : Conn)
    (pieceId : string) : Server * list Emission :=
  match currentRoom c with
  | Some r =>
      if falsy (currentRoom c)
      then (s, [(to_socket (sid c), error "Not in a room")])
      else
        let '(released, tk) := releaseToken (tokens s) pieceId (sid c) in
        (with_tokens s tk,
         if released
         then [(to_room_others r (sid c), piece_unlocked pieceId)]
         else [])
  | None => (s, [(to_socket (sid c), error "Not in a room")])
  end.

(** The body of the move handler once the piece index is known: push a
    new piece when there is none, else overwrite [x] and [y] in place. *)
Definition moved_pieces (ps : list Piece) (c : Conn) (d : PieceData)
  : list Piece :=
  match findIndex ps (pieceId d) with
  | None =>
      ps ++ [mkPiece (pieceId d) (dx d) (dy d) (dassetUrl d) (sid c) None]
  | Some i =>
      match ps !! i with
      | Some p =>
          <[i := mkPiece (id p) (dx d) (dy d) (assetUrl p) (Board.owner p)
                   (createdAt p)]> ps
      | None => ps
      end
  end.

(** [socket.on('move-piece', ...)]; a missing payload makes the
    destructuring throw, which the handler's [catch] reports. *)
Definition move_piece (e : Env) (s : Server) (c : Conn)
    (data : option PieceData) : Server * list Emission :=
  match data with
  | None => (s, [(to_socket (sid c), error "Failed to move piece")])
  | Some d =>
      match currentRoom c with
      | Some r =>
          if falsy (currentRoom c)
          then (s, [(to_socket (sid c), error "Not in a room")])
          else
            let '(ok, tk) :=
              hasAuthority (tokens s) (now e) (pieceId d) (sid c) in
            let s1 := with_tokens s tk in
            if negb ok
            then (s1, [(to_socket (sid c),
                          error "No authority to move this piece")])
            else
              match getRoom e s1 r with
              | None => (s1, [(to_socket (sid c), error "Game not found")])
              | Some game =>
                  let game' :=
                    mkGame (roomCode game) (moved_pieces (pieces game) c d)
                      (gameCreatedAt game) in
                  ((saveRoom e s1 game').2,
                   [(to_room r,
                       piece_moved (pieceId d) (dx d) (dy d) (sid c))])
              end
      | None => (s, [(to_socket (sid c), error "Not in a room")])
      end
  end.

(** [socket.on('add-piece', ...)]. *)
Definition add_piece (e : Env) (s : Server) (c : Conn)
    (data : option PieceData) : Server * list Emission :=
  match data with
  | None => (s, [(to_socket (sid c), error "Failed to add piece")])
  | Some d =>
      match currentRoom c with
      | Some r =>
          if falsy (currentRoom c)
          then (s, [(to_socket (sid c), error "Not in a room")])
          else
            match getRoom e s r with
            | None => (s, [(to_socket (sid c), error "Game not found")])
            | Some game =>
                let game' :=
                  mkGame (roomCode game)
                    (pieces game ++
                       [mkPiece (pieceId d) (dx d) (dy d) (dassetUrl d)
                          (sid c) None])
                    (gameCreatedAt game) in
                let s1 := (saveRoom e s game').2 in
                let '(_, tk) :=
                  grantToken (tokens s1) (now e) (pieceId d) (sid c) in
                (with_tokens s1 tk,
                 [(to_room r,
                     piece_added (pieceId d) (dx d) (dy d) (dassetUrl d)
                       (sid c))])
            end
      | None => (s, [(to_socket (sid c), error "Not in a room")])
      end
  end.

(** [socket.on('remove-piece', ...)]. *)
Definition remove_piece (e : Env) (s : Server) (c : Conn)
    (pieceId : string) : Server * list Emission :=
  match currentRoom c with
  | Some r =>
      if falsy (currentRoom c)
      then (s, [(to_socket (sid c), error "Not in a room")])
      else
        let '(ok, tk) := hasAuthority (tokens s) (now e) pieceId (sid c) in
        let s1 := with_tokens s tk in
        if negb ok
        then (s1, [(to_socket (sid c),
                      error "No authority to remove this piece")])
        else
          match getRoom e s1 r with
          | None => (s1, [(to_socket (sid c), error "Game not found")])
          | Some game =>
              let game' :=
                mkGame (roomCode game) (without (pieces game) pieceId)
                  (gameCreatedAt game) in
              let s2 := (saveRoom e s1 game').2 in
              let '(_, tk2) := releaseToken (tokens s2) pieceId (sid c) in
              (with_tokens s2 tk2,
               [(to_room r, piece_removed pieceId (sid c))])
          end
  | None => (s, [(to_socket (sid c), error "Not in a room")])
  end.

(** [if (currentRoom) io.to(currentRoom).emit('piece-unlocked', ...)]. *)
Definition unlock_notice (c : Conn) (pieceId : string) : list Emission :=
  match currentRoom c with
  | Some r => if falsy (currentRoom c) then []
              else [(to_room r, piece_unlocked pieceId)]
  | None => []
  end.

(** One round of the [forEach] of the disconnect handler: the key is
    looked up in the map as it is now, and a token owned by the socket is
    released and announced to the current room.  The keys come from a
    snapshot of a map, so a key is never visited after its own deletion;
    that (unreachable) case leaves the accumulator alone. *)
Definition disconnect_visit (c : Conn)
    (acc : Tokens * list Emission) (pieceId : string)
  : Tokens * list Emission :=
  match acc.1 !! pieceId with
  | Some t =>
      if bool_decide (TokenAuthority.owner t = sid c)
      then ((releaseToken acc.1 pieceId (sid c)).2,
            acc.2 ++ unlock_notice c pieceId)
      else acc
  | None => acc
  end.

(** [socket.on('disconnect', ...)].  [Object.keys] enumerates the token
    map in property order; the model enumerates it in the order of
    [map_to_list], so the unlock emissions are a permutation of the
    real ones. *)
Definition disconnect (s : Server) (c : Conn) : Server * list Emission :=
  let '(tk, out) :=
    foldl (disconnect_visit c) (tokens s, []) (map_to_list (tokens s)).*1 in
  (with_tokens s tk,
   out ++ match currentRoom c with
          | Some r => if falsy (currentRoom c) then []
                      else [(to_room_others r (sid c), player_left (sid c))]
          | None => []
          end).

(** The client events of the room server and their dispatch. *)
Inductive ClientEvent : Type :=
| ev_join_room (code : option string)
| ev_request_token (pieceId : string)
| ev_release_token (pieceId : string)
| ev_move_piece (data : option PieceData)
| ev_add_piece (data : option PieceData)
| ev_remove_piece (pieceId : string)
| ev_disconnect.

Definition handle (e : Env) (s : Server) (c : Conn) (ev : ClientEvent)
  : Server * Conn * list Emission :=
  match ev with
  | ev_join_room code =>
      let '(c', out) := join_room e s c code in (s, c', out)
  | ev_request_token p =>
      let '(s', out) := request_token e s c p in (s', c, out)
  | ev_release_token p =>
      let '(s', out) := release_token s c p in (s', c, out)
  | ev_move_piece d =>
      let '(s', out) := move_piece e s c d in (s', c, out)
  | ev_add_piece d =>
      let '(s', out) := add_piece e s c d in (s', c, out)
  | ev_remove_piece p =>
      let '(s', out) := remove_piece e s c p in (s', c, out)
  | ev_disconnect =>
      let '(s', out) := disconnect s c in (s', c, out)
  end.

(** The connection has joined room [r]. *)
Definition joined (c : Conn) (r : string) : Prop :=
  currentRoom c = Some r /\ r <> "".

(** The reading in which each room is its own token namespace: a
    request-token or release-token sent from room [A] never changes what a
    check answers to a connection that sits in another room [B]. *)
Definition rooms_isolate_tokens_statement : Prop :=
  forall (e : Env) (s : Server) (a c : Conn) (A B p : string)
         (ev : ClientEvent) (now' : Z),
    joined a A -> joined c B -> A <> B -> sid a <> sid c ->
    ev = ev_request_token p \/ ev = ev_release_token p ->
    (hasAuthority (tokens (handle e s a ev).1.1) now' p (sid c)).1
    = (hasAuthority (tokens s) now' p (sid c)).1.

(** The reading in which an authorised move of an id that is not on the
    board leaves the room's piece collection as it was. *)
Definition move_unknown_keeps_pieces_statement : Prop :=
  forall (e : Env) (s : Server) (c : Conn) (r : string) (d : PieceData)
         (game : Game),
    joined c r ->
    (hasAuthority (tokens s) (now e) (pieceId d) (sid c)).1 = true ->
    getRoom e s r = Some game ->
    findIndex (pieces game) (pieceId d) = None ->
    rooms (move_piece e s c (Some d)).1 = rooms s.

(** *** The room server as a transition system

    The process keeps one closure per live socket; [conns] maps the id of
    each live socket to its [currentRoom].  Socket ids are never reused
    while in use, a new connection starts with [currentRoom = null], and a
    disconnected socket fires no further handler. *)
Record World : Type := mkWorld {
  server : Server;
  conns : gmap string (option string)
}.

Inductive Input : Type :=
| in_connect (sid : string)
| in_event (sid : string) (ev : ClientEvent).

Definition step (e : Env) (w : World) (i : Input) : World * list Emission :=
  match i with
  | in_connect sid =>
      match conns w !! sid with
      | None => (mkWorld (server w) (<[sid := None]> (conns w)), [])
      | Some _ => (w, [])
      end
  | in_event sid ev =>
      match conns w !! sid with
      | None => (w, [])
      | Some room =>
          let res := handle e (server w) (mkConn sid room) ev in
          (mkWorld res.1.1
             match ev with
             | ev_disconnect => delete sid (conns w)
             | _ => <[sid := currentRoom res.1.2]> (conns w)
             end,
           res.2)
      end
  end.

(** The worlds the process can be in: it starts without tokens or
    sockets; inputs are handled one at a time; and the room files may
    change at any point in between (the HTTP API creates rooms, the hourly
    cleanup removes them). *)
Inductive reachable : World -> Prop :=
| reach_start (files : gmap string Game) :
    reachable (mkWorld (mkServer ∅ files) ∅)
| reach_step (w : World) (e : Env) (i : Input) :
    reachable w -> reachable (step e w i).1
| reach_files (w : World) (files : gmap string Game) :
    reachable w ->
    reachable (mkWorld (mkServer (tokens (server w)) files) (conns w)).

(** Every token in the map belongs to a live socket that has joined a
    room. *)
Definition holders_joined (w : World) : Prop :=
  forall p t, tokens (server w) !! p = Some t ->
    exists r, conns w !! TokenAuthority.owner t = Some (Some r) /\ r <> "".

(** The piece id of a [piece-unlocked] emission. *)
Definition unlocked_id (em : Emission) : option string :=
  match em.2 with
  | piece_unlocked q => Some q
  | _ => None
  end.

(** *** The HTTP route that creates rooms *)

(** What [POST /api/rooms] answers. *)
Inductive RoomsResponse : Type :=
| rooms_ok (roomCode : string) (pieceCount : nat)
| rooms_bad_request (message : string).

(** [app.post('/api/rooms', ...)]: find the room or create an empty one.
    The result of [saveRoom] is not looked at. *)
Definition post_rooms (e : Env) (s : Server) (code : option string)
  : Server * RoomsResponse :=
  match code with
  | Some r =>
      if falsy code
      then (s, rooms_bad_request "Room code is required")
      else
        match getRoom e s r with
        | Some game => (s, rooms_ok (roomCode game) (length (pieces game)))
        | None =>
            let game := mkGame r [] (now e) in
            ((saveRoom e s game).2,
             rooms_ok (roomCode game) (length (pieces game)))
        end
  | None => (s, rooms_bad_request "Room code is required")
  end.

(** Every room file holds the record of the room it is named after, as
    [post_rooms] writes them. *)
Definition files_well_named (s : Server) : Prop :=
  forall k g, rooms s !! k = Some g -> roomCode g = k.

End RoomServer.

(** ** The Redis client, as far as the services use it *)

Module Redis.

(** Redis sorted sets are kept abstract: [zadd] and [zrevrange] are the
    only commands the services issue, and nothing below depends on how
    members are ordered or deduplicated. *)
Class SortedSet (M : Type) : Type := {
  zset : Type;
  zset_empty : zset;
  zset_add : zset -> Z -> M -> zset;
  zset_revrange : zset -> list M
}.

(** A field of a hash: a literal string, or the ISO rendering of an
    instant. *)
Inductive HashValue : Type :=
| hv_text (s : string)
| hv_instant (ms : Z).

Section Client.
Context {M : Type} `{SortedSet M}.

(** The keyspace, split by the type of value a key holds (the services
    prefix their keys so that the three never overlap), and whether the
    connection currently serves commands.  A string value carries its
    expiry deadline in milliseconds when it was set with [EX]. *)
Record Client : Type := mkClient {
  strings : gmap string (string * option Z);
  zsets : gmap string zset;
  hashes : gmap string (gmap string HashValue);
  up : bool
}.

(** A key with a deadline is visible up to and including the deadline. *)
Definition live (now : Z) (deadline : option Z) : bool :=
  match deadline with
  | None => true
  | Some d => now <=? d
  end.

(** Every command yields [None] when the promise rejects. *)

Definition get (r : Client) (now : Z) (key : string)
  : option (option string) :=
  if up r
  then Some match strings r !! key with
            | Some (v, d) => if live now d then Some v else None
            | None => None
            end
  else None.

Definition set (r : Client) (key value : string) : option Client :=
  if up r
  then Some (mkClient (<[key := (value, None)]> (strings r))
               (zsets r) (hashes r) (up r))
  else None.

(** [redis.set(key, value, 'EX', seconds)]. *)
Definition set_ex (r : Client) (now : Z) (key value : string)
    (seconds : Z) : option Client :=
  if up r
  then Some (mkClient
               (<[key := (value, Some (now + seconds * 1000))]> (strings r))
               (zsets r) (hashes r) (up r))
  else None.

Definition del (r : Client) (key : string) : option Client :=
  if up r
  then Some (mkClient (delete key (strings r)) (delete key (zsets r))
               (delete key (hashes r)) (up r))
  else None.

Definition zadd (r : Client) (key : string) (score : Z) (member : M)
  : option Client :=
  if up r
  then Some (mkClient (strings r)
               (<[key := zset_add (default zset_empty (zsets r !! key))
                           score member]> (zsets r))
               (hashes r) (up r))
  else None.

(** [redis.zrevrange(key, 0, -1)]. *)
Definition zrevrange (r : Client) (key : string) : option (list M) :=
  if up r
  then Some (zset_revrange (default zset_empty (zsets r !! key)))
  else None.

Definition exists_ (r : Client) (now : Z) (key : string) : option bool :=
  if up r
  then Some (match strings r !! key with
             | Some (_, d) => live now d
             | None => false
             end
             || bool_decide (is_Some (zsets r !! key))
             || bool_decide (is_Some (hashes r !! key)))
  else None.

(** [redis.hset(key, fields)]: merge the given fields into the hash. *)
Definition hset (r : Client) (key : string)
    (fields : list (string * HashValue)) : option Client :=
  if up r
  then Some (mkClient (strings r) (zsets r)
               (<[key := foldl (fun h fv => <[fv.1 := fv.2]> h)
                           (default ∅ (hashes r !! key)) fields]>
                  (hashes r))
               (up r))
  else None.

End Client.

Arguments Client M {_}.

End Redis.

(** ** [services/tokenService.js]: tokens as expiring Redis keys *)

Module TokenService.
Import Redis.

Section Service.
Context {M : Type} `{SortedSet M}.

(** Token expiration time in seconds. *)
Definition TOKEN_EXPIRY : Z := 30.

Definition TOKEN_KEY_PREFIX : string := "token:".

Definition tokenKey (pieceId : string) : string :=
  TOKEN_KEY_PREFIX +:+ pieceId.

(** [grantToken]: [true] after the write, [false] from the [catch]. *)
Definition grantToken (r : Client M) (now : Z) (pieceId playerId : string)
  : bool * Client M :=
  match set_ex r now (tokenKey pieceId) playerId TOKEN_EXPIRY with
  | Some r' => (true, r')
  | None => (false, r)
  end.

(** [hasAuthority]: [tokenOwner === playerId], [false] from the
    [catch]. *)
Definition hasAuthority (r : Client M) (now : Z) (pieceId playerId : string)
  : bool :=
  match get r now (tokenKey pieceId) with
  | Some tokenOwner => bool_decide (tokenOwner = Some playerId)
  | None => false
  end.

(** [releaseToken]. *)
Definition releaseToken (r : Client M) (now : Z)
    (pieceId playerId : string) : bool * Client M :=
  match get r now (tokenKey pieceId) with
  | Some tokenOwner =>
      if bool_decide (tokenOwner <> Some playerId)
      then (false, r)
      else match del r (tokenKey pieceId) with
           | Some r' => (true, r')
           | None => (false, r)
           end
  | None => (false, r)
  end.

End Service.

End TokenService.

(** ** [services/game]: the state manager and the piece manager *)

Module GameService.
Import Board Redis.

(** [{ pieces: [...] }]. *)
Record GameState : Type := mkGameState { pieces : list Piece }.

(** The member [saveGameState] adds to the sorted set of a game (stored
    as JSON; the model keeps the record). *)
Record Snapshot : Type := mkSnapshot {
  snap_id : string;
  snap_name : option string;
  snap_data : GameState;
  savedAt : Z;
  isManual : bool
}.

(** The fields of a piece that [updatePiece] is asked to overwrite; the
    handlers pass [{ x, y }]. *)
Record Updates : Type := mkUpdates { ux : option Z; uy : option Z }.

Definition GAME_PREFIX : string := "game:".
Definition GAME_STATES_SUFFIX : string := ":states".
Definition GAME_META_SUFFIX : string := ":meta".
Definition GAME_CURRENT_SUFFIX : string := ":current".
Definition DEFAULT_GAME_ID : string := "default".

Definition statesKey (gameId : string) : string :=
  GAME_PREFIX +:+ gameId +:+ GAME_STATES_SUFFIX.
Definition metaKey (gameId : string) : string :=
  GAME_PREFIX +:+ gameId +:+ GAME_META_SUFFIX.
Definition currentKey (gameId : string) : string :=
  GAME_PREFIX +:+ gameId +:+ GAME_CURRENT_SUFFIX.

Definition emptyState : GameState := mkGameState [].

(** [{ ...piece, ...updates }]. *)
Definition merge (p : Piece) (u : Updates) : Piece :=
  mkPiece (id p) (default (x p) (ux u)) (default (y p) (uy u))
    (assetUrl p) (Board.owner p) (createdAt p).

Abbreviation Store := (Client Snapshot).

Section Managers.
Context `{SortedSet Snapshot}.

(** [stateManager.getCurrentState]. *)
Definition getCurrentState (r : Store) (now : Z) (gameId : string)
  : GameState :=
  match get r now (currentKey gameId) with
  | None => emptyState
  | Some currentStateId =>
      if falsy currentStateId then emptyState
      else
        match zrevrange r (statesKey gameId) with
        | None => emptyState
        | Some states =>
            match
              list_find (fun st => Some (snap_id st) = currentStateId)
                states
            with
            | Some (_, st) => snap_data st
            | None => emptyState
            end
        end
  end.

(** [stateManager.getGameState]. *)
Definition getGameState (r : Store) (now : Z) (gameId : string)
  : GameState :=
  getCurrentState r now gameId.

(** The commands of [saveGameState], in order; [None] as soon as one
    rejects. *)
Definition saveGameState_commands (r : Store) (now : Z)
    (state : GameState) (stateName : option string) (gameId : string)
    (manual : bool) : option Store :=
  let timestamp := now in
  let stateId :=
    if falsy stateName then "state-" +:+ pretty timestamp
    else default "" stateName in
  r1 ← zadd r (statesKey gameId) timestamp
         (mkSnapshot stateId stateName state timestamp manual);
  r2 ← set r1 (currentKey gameId) stateId;
  present ← exists_ r2 now (metaKey gameId);
  r3 ← (if negb present
        then hset r2 (metaKey gameId)
               [("created_at", hv_instant now);
                ("name",
                 hv_text (if bool_decide (gameId = DEFAULT_GAME_ID)
                          then "Default Game"
                          else "Game " +:+ gameId))]
        else Some r2);
  hset r3 (metaKey gameId) [("last_modified", hv_instant now)].

(** [stateManager.saveGameState]; of the result record only [success]
    is kept, which is all the piece manager reads. *)
Definition saveGameState (r : Store) (now : Z) (state : GameState)
    (stateName : option string) (gameId : string) (manual : bool)
  : bool * Store :=
  match saveGameState_commands r now state stateName gameId manual with
  | Some r' => (true, r')
  | None => (false, r)
  end.

(** [pieceManager.addPiece]. *)
Definition addPiece (r : Store) (now : Z) (piece : Piece)
    (gameId : string) : bool * Store :=
  let state := getGameState r now gameId in
  saveGameState r now (mkGameState (pieces state ++ [piece])) None gameId
    false.

(** [pieceManager.updatePiece]. *)
Definition updatePiece (r : Store) (now : Z) (pieceId : string)
    (updates : Updates) (gameId : string) : bool * Store :=
  let state := getGameState r now gameId in
  match findIndex (pieces state) pieceId with
  | None => (false, r)
  | Some pieceIndex =>
      let pieces' :=
        match pieces state !! pieceIndex with
        | Some p => <[pieceIndex := merge p updates]> (pieces state)
        | None => pieces state
        end in
      saveGameState r now (mkGameState pieces') None gameId false
  end.

(** [pieceManager.removePiece]. *)
Definition removePiece (r : Store) (now : Z) (pieceId : string)
    (gameId : string) : bool * Store :=
  let state := getGameState r now gameId in
  saveGameState r now (mkGameState (without (pieces state) pieceId)) None
    gameId false.

(** [array.slice(0, limit)] for an integer [limit]: a negative limit
    counts from the end. *)
Definition slice_to {A : Type} (l : list A) (limit : Z) : list A :=
  take (Z.to_nat (if limit <? 0
                  then Z.max (Z.of_nat (length l) + limit) 0
                  else limit)) l.

(** [stateManager.getGameStates]: newest first, optionally only the manual
    saves, cut to [limit]; [[]] from the [catch]. *)
Definition getGameStates (r : Store) (gameId : string) (limit : Z)
    (manualOnly : bool) : list Snapshot :=
  match zrevrange r (statesKey gameId) with
  | None => []
  | Some states =>
      slice_to
        (if manualOnly then filter (fun st => isManual st = true) states
         else states)
        limit
  end.

(** [stateManager.switchToState]: repoint the current-state key; whether
    a snapshot with that id exists is not checked. *)
Definition switchToState (r : Store) (now : Z) (stateId gameId : string)
  : bool * Store :=
  match
    r1 ← set r (currentKey gameId) stateId;
    hset r1 (metaKey gameId) [("last_modified", hv_instant now)]
  with
  | Some r' => (true, r')
  | None => (false, r)
  end.

(** [pieceManager.getPiece]: [state.pieces.find(...) || null]. *)
Definition getPiece (r : Store) (now : Z) (pieceId gameId : string)
  : option Piece :=
  snd <$> list_find (fun p => id p = pieceId)
            (pieces (getGameState r now gameId)).

(** [pieceManager.getAllPieces]. *)
Definition getAllPieces (r : Store) (now : Z) (gameId : string)
  : list Piece :=
  pieces (getGameState r now gameId).

(** [gameManager.deleteGame]: drop the metadata, the snapshots and the
    current pointer of a game. *)
Definition deleteGame (r : Store) (gameId : string) : bool * Store :=
  match
    r1 ← del r (metaKey gameId);
    r2 ← del r1 (statesKey gameId);
    del r2 (currentKey gameId)
  with
  | Some r' => (true, r')
  | None => (false, r)
  end.

End Managers.

End GameService.

(** ** The single-board server of [src/socket/handlers.js] *)

Module BoardServer.
Import Board Wire Redis GameService.

Section Handlers.
Context `{SortedSet Snapshot}.

(** [socket.on('get-game-state', ...)]. *)
Definition get_game_state (r : Store) (now : Z) (sid : string)
  : Store * list Emission :=
  (r, [(to_socket sid,
          game_state None (pieces (getGameState r now DEFAULT_GAME_ID)))]).

(** [socket.on('request-token', ...)]. *)
Definition request_token (r : Store) (now : Z) (sid pieceId : string)
  : Store * list Emission :=
  let '(granted, r') := TokenService.grantToken r now pieceId sid in
  if granted
  then (r', [(to_socket sid, token_granted pieceId);
             (to_others sid, piece_locked pieceId sid)])
  else (r', [(to_socket sid, token_denied pieceId)]).

(** [socket.on('release-token', ...)]. *)
Definition release_token (r : Store) (now : Z) (sid pieceId : string)
  : Store * list Emission :=
  let '(released, r') := TokenService.releaseToken r now pieceId sid in
  (r', if released then [(to_others sid, piece_unlocked pieceId)] else []).

(** [socket.on('drag-piece', ...)]; a missing payload throws into a
    [catch] that only logs. *)
Definition drag_piece (r : Store) (now : Z) (sid : string)
    (data : option PieceData) : Store * list Emission :=
  match data with
  | None => (r, [])
  | Some d =>
      if negb (TokenService.hasAuthority r now (pieceId d) sid)
      then (r, [])
      else (r, [(to_others sid,
                   piece_dragged (pieceId d) (dx d) (dy d) sid)])
  end.

(** [socket.on('move-piece', ...)]. *)
Definition move_piece (r : Store) (now : Z) (sid : string)
    (data : option PieceData) : Store * list Emission :=
  match data with
  | None => (r, [(to_socket sid, error "Failed to move piece")])
  | Some d =>
      if negb (TokenService.hasAuthority r now (pieceId d) sid)
      then (r, [(to_socket sid, error "No authority to move this piece")])
      else
        let '(_, r') :=
          updatePiece r now (pieceId d)
            (mkUpdates (Some (dx d)) (Some (dy d))) DEFAULT_GAME_ID in
        (r', [(to_all, piece_moved (pieceId d) (dx d) (dy d) sid)])
  end.

(** [socket.on('add-piece', ...)]. *)
Definition add_piece (r : Store) (now : Z) (sid : string)
    (data : option PieceData) : Store * list Emission :=
  match data with
  | None => (r, [(to_socket sid, error "Failed to add piece")])
  | Some d =>
      let piece :=
        mkPiece (pieceId d) (dx d) (dy d) (dassetUrl d) sid (Some now) in
      let '(_, r1) := addPiece r now piece DEFAULT_GAME_ID in
      let '(_, r2) := TokenService.grantToken r1 now (pieceId d) sid in
      (r2, [(to_all,
               piece_added (pieceId d) (dx d) (dy d) (dassetUrl d) sid)])
  end.

(** [socket.on('remove-piece', ...)]. *)
Definition remove_piece (r : Store) (now : Z) (sid pieceId : string)
  : Store * list Emission :=
  if negb (TokenService.hasAuthority r now pieceId sid)
  then (r, [(to_socket sid, error "No authority to remove this piece")])
  else
    let '(_, r1) := removePiece r now pieceId DEFAULT_GAME_ID in
    let '(_, r2) := TokenService.releaseToken r1 now pieceId sid in
    (r2, [(to_all, piece_removed pieceId sid)]).

(** One round of the [for ... of gameState.pieces] loop of the
    disconnect handler. *)
Definition disconnect_visit (now : Z) (sid : string)
    (acc : Store * list Emission) (piece : Piece)
  : Store * list Emission :=
  if TokenService.hasAuthority acc.1 now (id piece) sid
  then ((TokenService.releaseToken acc.1 now (id piece) sid).2,
        acc.2 ++ [(to_all, piece_unlocked (id piece))])
  else acc.

(** [socket.on('disconnect', ...)]: only the pieces of the current
    board state are visited. *)
Definition disconnect (r : Store) (now : Z) (sid : string)
  : Store * list Emission :=
  let gameState := getGameState r now DEFAULT_GAME_ID in
  let '(r', out) :=
    foldl (disconnect_visit now sid) (r, []) (pieces gameState) in
  (r', out ++ [(to_others sid, player_left sid)]).

(** The client events of the single-board server and their dispatch. *)
Inductive ClientEvent : Type :=
| ev_get_game_state
| ev_request_token (pieceId : string)
| ev_release_token (pieceId : string)
| ev_drag_piece (data : option PieceData)
| ev_move_piece (data : option PieceData)
| ev_add_piece (data : option PieceData)
| ev_remove_piece (pieceId : string)
| ev_disconnect.

Definition handle (r : Store) (now : Z) (sid : string) (ev : ClientEvent)
  : Store * list Emission :=
  match ev with
  | ev_get_game_state => get_game_state r now sid
  | ev_request_token p => request_token r now sid p
  | ev_release_token p => release_token r now sid p
  | ev_drag_piece d => drag_piece r now sid d
  | ev_move_piece d => move_piece r now sid d
  | ev_add_piece d => add_piece r now sid d
  | ev_remove_piece p => remove_piece r now sid p
  | ev_disconnect => disconnect r now sid
  end.

End Handlers.

(** The board a client sees: the piece collection of the default game. *)
Definition board `{SortedSet Snapshot} (r : Store) (now : Z) : list Piece :=
  pieces (getGameState r now DEFAULT_GAME_ID).

End BoardServer.

(** ** A concrete sorted set, for running the model

    Members are kept in a list, newest first; adding a member that is
    already present moves it to the front. *)

Module ListSortedSet.
Import Redis GameService.

#[export] Instance piece_eq_dec : EqDecision Board.Piece.
Proof. solve_decision. Defined.

#[export] Instance game_state_eq_dec : EqDecision GameState.
Proof. solve_decision. Defined.

#[export] Instance snapshot_eq_dec : EqDecision Snapshot.
Proof. solve_decision. Defined.

#[export] Instance list_sorted_set : SortedSet Snapshot := {|
  zset := list (Z * Snapshot);
  zset_empty := [];
  zset_add := fun zs score m =>
    (score, m) :: filter (fun sm => sm.2 <> m) zs;
  zset_revrange := fun zs => zs.*2
|}.

Definition empty_store (connected : bool) : Client Snapshot :=
  mkClient ∅ ∅ ∅ connected.

End ListSortedSet.

(** ** What the services rely on from Redis sorted sets

    [ZADD key score member] puts the member into the set with that score
    (a member already present is moved to the new score), and
    [ZREVRANGE key 0 -1] lists the members by decreasing score.  Of this,
    the properties below use only: the empty set lists nothing; adding
    brings in no other member; and a member added with a score above every
    score of the set is listed first.  [zset_items] names the
    (score, member) pairs a set holds. *)

Module RedisLaws.
Import Redis.

Class SortedSetLaws (M : Type) `{SortedSet M} : Type := {
  zset_items : zset -> list (Z * M);
  zset_items_empty : zset_items zset_empty = [];
  zset_revrange_empty : zset_revrange zset_empty = [];
  zset_items_add : forall zs score m x,
    x ∈ zset_items (zset_add zs score m) ->
    x = (score, m) \/ x ∈ zset_items zs;
  zset_revrange_items : forall zs m,
    m ∈ zset_revrange zs <-> exists score, (score, m) ∈ zset_items zs;
  zset_revrange_add_top : forall zs score m,
    (forall x, x ∈ zset_items zs -> x.1 < score) ->
    exists rest, zset_revrange (zset_add zs score m) = m :: rest
}.

(** The scores of the snapshots saved for a key are all below [bound]. *)
Definition scores_below {M : Type} `{SortedSetLaws M} (r : Client M)
    (key : string) (bound : Z) : Prop :=
  forall x, x ∈ zset_items (default zset_empty (zsets r !! key)) ->
    x.1 < bound.

End RedisLaws.

Module LawfulListSortedSet.
Import Redis GameService RedisLaws ListSortedSet.

#[export] Instance list_sorted_set_laws : SortedSetLaws Snapshot.
Proof.
  refine {| zset_items :=
              (fun zs => zs)
              : @zset Snapshot list_sorted_set -> list (Z * Snapshot) |}.
  - reflexivity.
  - reflexivity.
  - intros zs score m x Hx. simpl in Hx.
    apply elem_of_cons in Hx as [->|Hx]; [by left|].
    right. by apply list_elem_of_filter in Hx as [_ ?].
  - intros zs m. simpl. rewrite list_elem_of_fmap. split.
    + intros ([sc m'] & -> & Hin). by exists sc.
    + intros [sc Hin]. by exists (sc, m).
  - intros zs score m _. simpl. eauto.
Defined.

End LawfulListSortedSet.

(** ** Two readings of the protocol that are compared with the handlers *)

Module Statements.
Import Board Wire Redis GameService.

(** After the disconnect handler no token of the connection is left,
    whatever piece id it was taken on: in the room server no entry of the
    token map is owned by it, in the single-board server it passes no
    check. *)
Definition disconnect_leaves_no_token_statement : Prop :=
  (forall (s : RoomServer.Server) (c : RoomServer.Conn) (q : string),
     TokenAuthority.owns (RoomServer.tokens (RoomServer.disconnect s c).1)
       (RoomServer.sid c) q = false)
  /\ (forall (SS : SortedSet Snapshot) (r : Store) (now : Z)
             (sid q : string),
        TokenService.hasAuthority (BoardServer.disconnect r now sid).1 now q
          sid = false).

(** No handler of either server ever emits [token-denied]. *)
Definition never_token_denied_statement : Prop :=
  (forall (e : RoomServer.Env) (s : RoomServer.Server) (c : RoomServer.Conn)
          (ev : RoomServer.ClientEvent),
     never_denied (RoomServer.handle e s c ev).2)
  /\ (forall (SS : SortedSet Snapshot) (r : Store) (now : Z) (sid : string)
             (ev : BoardServer.ClientEvent),
        never_denied (BoardServer.handle r now sid ev).2).

End Statements.

(** ** Properties of the in-memory token authority *)

Module TokenAuthorityFacts.
Import TokenAuthority.

Lemma hasAuthority_true_inv (tokens : Tokens) now p c :
  (hasAuthority tokens now p c).1 = true ->
  exists t, tokens !! p = Some t /\ owner t = c /\ now - timestamp t <= 30000.
Proof.
  unfold hasAuthority. destruct (tokens !! p) as [t|] eqn:Hp; [|done].
  destruct (now - timestamp t >? 30000) eqn:Hexp; [done|].
  simpl. intros Hc%bool_decide_eq_true. exists t. repeat split; [done|lia].
Qed.

Lemma hasAuthority_true_state (tokens : Tokens) now p c :
  (hasAuthority tokens now p c).1 = true ->
  (hasAuthority tokens now p c).2 = tokens.
Proof.
  unfold hasAuthority. destruct (tokens !! p) as [t|]; [|done].
  by destruct (now - timestamp t >? 30000).
Qed.

(** A check only ever touches the entry of the piece it is asked about. *)
Lemma hasAuthority_frame (tokens : Tokens) now p c q :
  q <> p -> (hasAuthority tokens now p c).2 !! q = tokens !! q.
Proof.
  intros Hq. unfold hasAuthority. destruct (tokens !! p) as [t|]; [|done].
  destruct (now - timestamp t >? 30000); [|done].
  simpl. by rewrite lookup_delete_ne.
Qed.

Lemma releaseToken_frame (tokens : Tokens) p c q :
  q <> p -> (releaseToken tokens p c).2 !! q = tokens !! q.
Proof.
  intros Hq. unfold releaseToken. destruct (tokens !! p) as [t|]; [|done].
  case_bool_decide; [|done]. simpl. by rewrite lookup_delete_ne.
Qed.

Lemma grantToken_frame (tokens : Tokens) now p c q :
  q <> p -> (grantToken tokens now p c).2 !! q = tokens !! q.
Proof. intros Hq. simpl. by rewrite lookup_insert_ne. Qed.

(** The answer of a check depends on the map only through the entry of the
    piece asked about. *)
Lemma hasAuthority_lookup_ext (tk1 tk2 : Tokens) now q c :
  tk1 !! q = tk2 !! q ->
  (hasAuthority tk1 now q c).1 = (hasAuthority tk2 now q c).1.
Proof.
  intros Heq. unfold hasAuthority. rewrite Heq.
  destruct (tk2 !! q) as [t|]; [|done].
  by destruct (now - timestamp t >? 30000).
Qed.

(** C1 as stated fails at the boundary instant: a token granted at time 0
    to X is still honoured at time 30000, where [now - grantedAt < TTL] no
    longer holds, and it is not evicted. *)
Lemma check_strict_boundary_fails :
  ~ check_strict_statement {["p1" := mkToken "X" 0]} 30000 "p1" "X".
Proof.
  intros [Hiff _]. destruct Hiff as [Hto _].
  destruct (Hto eq_refl) as (t & Ht & _ & Hlt).
  rewrite lookup_singleton_eq in Ht. injection Ht as <-.
  simpl in Hlt. unfold TTL in Hlt. lia.
Qed.

(** The boundary of the TTL: honoured at 30000 ms, evicted one millisecond
    later, also when somebody else asks. *)
Example check_at_the_boundary :
  hasAuthority {["p1" := mkToken "X" 0]} 30000 "p1" "X"
  = (true, {["p1" := mkToken "X" 0]})
  /\ hasAuthority {["p1" := mkToken "X" 0]} 30001 "p1" "X" = (false, ∅)
  /\ hasAuthority {["p1" := mkToken "X" 0]} 30001 "p1" "Y" = (false, ∅).
Proof.
  unfold hasAuthority. rewrite !lookup_singleton_eq. simpl.
  by rewrite delete_singleton_eq.
Qed.

(** C1, amended: [hasAuthority] answers [true] exactly when a token for
    the piece exists, the caller owns it and at most 30000 ms have passed
    since it was granted; it leaves the map alone unless a token for the
    piece exists with more than 30000 ms elapsed, in which case it answers
    [false] and deletes that token whoever asks. *)
Theorem hasAuthority_spec (tokens : Tokens) (now : Z) (p c : string) :
  ((hasAuthority tokens now p c).1 = true <->
     exists t, tokens !! p = Some t /\ owner t = c
               /\ now - timestamp t <= TTL)
  /\ (forall t, tokens !! p = Some t ->
        if now - timestamp t >? TTL
        then hasAuthority tokens now p c = (false, delete p tokens)
        else (hasAuthority tokens now p c).2 = tokens)
  /\ (tokens !! p = None -> hasAuthority tokens now p c = (false, tokens)).
Proof.
  unfold TTL. split; [split|split].
  - apply hasAuthority_true_inv.
  - intros (t & Ht & Ho & Hle). unfold hasAuthority. rewrite Ht.
    replace (now - timestamp t >? 30000) with false by lia.
    simpl. by apply bool_decide_eq_true.
  - intros t Ht. unfold hasAuthority. rewrite Ht.
    by destruct (now - timestamp t >? 30000).
  - intros Hn. unfold hasAuthority. by rewrite Hn.
Qed.

(** C2: against one token map at one instant, two distinct connections are
    never both given authority over the same piece, whether the two checks
    are asked of the same map or one after the other. *)
Theorem hasAuthority_exclusive (tokens : Tokens) (now : Z) (p c1 c2 : string) :
  c1 <> c2 ->
  ~ ((hasAuthority tokens now p c1).1 = true
     /\ (hasAuthority tokens now p c2).1 = true)
  /\ ~ ((hasAuthority tokens now p c1).1 = true
        /\ (hasAuthority (hasAuthority tokens now p c1).2 now p c2).1 = true).
Proof.
  intros Hne.
  assert (Hboth : ~ ((hasAuthority tokens now p c1).1 = true
                     /\ (hasAuthority tokens now p c2).1 = true)).
  { intros [H1 H2].
    apply hasAuthority_true_inv in H1 as (t1 & Ht1 & Ho1 & _).
    apply hasAuthority_true_inv in H2 as (t2 & Ht2 & Ho2 & _).
    congruence. }
  split; [exact Hboth|].
  intros [H1 H2]. rewrite (hasAuthority_true_state _ _ _ _ H1) in H2. tauto.
Qed.

Lemma hasAuthority_exclusive_witness :
  ~ ((hasAuthority {["p1" := mkToken "X" 0]} 10 "p1" "X").1 = true
     /\ (hasAuthority {["p1" := mkToken "X" 0]} 10 "p1" "Y").1 = true).
Proof.
  apply (hasAuthority_exclusive {["p1" := mkToken "X" 0]} 10 "p1" "X" "Y").
  discriminate.
Defined.

(** C3 as stated fails on an expired token that is still in the map: X's
    token granted at time 0 is released by X at time 100000 with result
    [true], and the entry is deleted. *)
Lemma release_expired_succeeds :
  ~ release_live_only_statement {["p1" := mkToken "X" 0]} 100000 "p1" "X".
Proof.
  intros [Hto _]. destruct (Hto eq_refl) as [(t & Ht & _ & Hlt) _].
  rewrite lookup_singleton_eq in Ht. injection Ht as <-.
  simpl in Hlt. unfold TTL in Hlt. lia.
Qed.

(** C3, amended: [releaseToken] returns [true] exactly when a token for the
    piece exists and the caller is its owner, expired or not; it then
    deletes that token.  In every other case (no token, or a token owned by
    another connection) it returns [false] and leaves the map unchanged. *)
Theorem releaseToken_spec (tokens : Tokens) (p c : string) :
  ((releaseToken tokens p c).1 = true <->
     exists t, tokens !! p = Some t /\ owner t = c)
  /\ ((releaseToken tokens p c).1 = true ->
        (releaseToken tokens p c).2 = delete p tokens
        /\ (releaseToken tokens p c).2 !! p = None)
  /\ ((releaseToken tokens p c).1 = false ->
        (releaseToken tokens p c).2 = tokens).
Proof.
  unfold releaseToken. destruct (tokens !! p) as [t|] eqn:Hp.
  - case_bool_decide as Ho; simpl.
    + split; [split; [eauto|done]|]. split; [|done].
      intros _. split; [done|apply lookup_delete_eq].
    + split; [split; [done|]|done].
      intros (t' & Ht' & Ho'). congruence.
  - simpl. split; [split; [done|]|done].
    intros (t' & Ht' & _). congruence.
Qed.

(** C4: whatever the token map holds, [grantToken] returns [true] and
    leaves a token for the piece owned by the caller and stamped with the
    current time; no other entry changes, the caller passes a check made at
    that instant and any other connection fails it. *)
Theorem grantToken_always (tokens : Tokens) (now : Z) (p c : string) :
  (grantToken tokens now p c).1 = true
  /\ (grantToken tokens now p c).2 !! p = Some (mkToken c now)
  /\ (forall q, q <> p -> (grantToken tokens now p c).2 !! q = tokens !! q)
  /\ (hasAuthority (grantToken tokens now p c).2 now p c).1 = true
  /\ (forall c', c' <> c ->
        (hasAuthority (grantToken tokens now p c).2 now p c').1 = false).
Proof.
  split; [done|]. split; [apply lookup_insert_eq|].
  split; [intros q Hq; by apply lookup_insert_ne|].
  unfold hasAuthority. simpl. rewrite lookup_insert_eq. simpl.
  replace (now - now >? 30000) with false by lia. simpl.
  split; [by apply bool_decide_eq_true|].
  intros c' Hc'. apply bool_decide_eq_false. congruence.
Qed.

(** A grant displaces a valid holder: Y asks one second after X. *)
Example grant_displaces_valid_holder :
  let tk := (grantToken ∅ 0 "p1" "X").2 in
  (hasAuthority tk 1000 "p1" "X").1 = true
  /\ (grantToken tk 1000 "p1" "Y").1 = true
  /\ (hasAuthority (grantToken tk 1000 "p1" "Y").2 1000 "p1" "X").1 = false
  /\ (hasAuthority (grantToken tk 1000 "p1" "Y").2 1000 "p1" "Y").1 = true.
Proof. vm_compute. done. Qed.

(** Scenario C: X is granted, idles for 31 seconds, then Y is granted. *)
Example grant_after_expiry :
  let tk := (grantToken ∅ 0 "p1" "X").2 in
  (hasAuthority tk 31000 "p1" "X").1 = false
  /\ (grantToken tk 31000 "p1" "Y").1 = true
  /\ (hasAuthority (grantToken tk 31000 "p1" "Y").2 31000 "p1" "Y").1 = true.
Proof. vm_compute. done. Qed.

End TokenAuthorityFacts.

(** ** Properties of the release loop *)

Section SweepFacts.
Context {S K : Type} `{EqDecision K}.
Context (holds : S -> K -> bool) (release : S -> K -> S).

(** Releasing a key drops the hold on it and changes no other hold. *)
Hypothesis release_same : forall s k, holds (release s k) k = false.
Hypothesis release_other :
  forall s k k', k' <> k -> holds (release s k) k' = holds s k'.

Lemma sweep_unheld_stays (s : S) (ks : list K) (q : K) :
  holds s q = false -> holds (sweep holds release s ks).1 q = false.
Proof.
  revert s. induction ks as [|k ks IH]; intros s Hq; simpl; [done|].
  destruct (holds s k) eqn:Hk; simpl; [|by apply IH].
  apply IH. rewrite release_other; [done|]. intros ->. congruence.
Qed.

(** What the loop never had a hold on is left as it was, for any
    observation that releases of other keys do not disturb. *)
Lemma sweep_unheld_frame {A : Type} (obs : S -> A) (s : S) (ks : list K)
    (q : K) :
  (forall s' k, k <> q -> obs (release s' k) = obs s') ->
  holds s q = false ->
  obs (sweep holds release s ks).1 = obs s.
Proof.
  intros Hobs. revert s. induction ks as [|k ks IH]; intros s Hq; simpl;
    [done|].
  destruct (holds s k) eqn:Hk; simpl; [|by apply IH].
  assert (k <> q) by (intros ->; congruence).
  rewrite IH; [by apply Hobs|]. by rewrite release_other.
Qed.

(** An observation that no release of a visited key disturbs is the same
    after the loop. *)
Lemma sweep_frame_on {A : Type} (obs : S -> A) (s : S) (ks : list K) :
  (forall s' k, k ∈ ks -> obs (release s' k) = obs s') ->
  obs (sweep holds release s ks).1 = obs s.
Proof.
  revert s. induction ks as [|k ks IH]; intros s Hobs; simpl; [done|].
  assert (Hrest : forall s' k', k' ∈ ks -> obs (release s' k') = obs s')
    by (intros; apply Hobs; by right).
  destruct (holds s k); simpl; [|by apply IH].
  rewrite IH by done. apply Hobs. by left.
Qed.

(** No visited key is still held at the end. *)
Lemma sweep_releases_all (s : S) (ks : list K) (q : K) :
  q ∈ ks -> holds (sweep holds release s ks).1 q = false.
Proof.
  revert s. induction ks as [|k ks IH]; intros s Hin; [by inversion Hin|].
  simpl. destruct (holds s k) eqn:Hk; simpl.
  - apply elem_of_cons in Hin as [->|Hin]; [|by apply IH].
    apply sweep_unheld_stays, release_same.
  - apply elem_of_cons in Hin as [->|Hin]; [|by apply IH].
    by apply sweep_unheld_stays.
Qed.

(** The log holds exactly the visited keys that were held at the start. *)
Lemma sweep_log_elem (s : S) (ks : list K) (q : K) :
  q ∈ (sweep holds release s ks).2 <-> q ∈ ks /\ holds s q = true.
Proof.
  revert s. induction ks as [|k ks IH]; intros s; simpl.
  - split; [by inversion 1|by intros [? _]; inversion H].
  - destruct (holds s k) eqn:Hk; simpl.
    + rewrite !elem_of_cons, IH. split.
      * intros [->|[Hin Hq]]; [by auto|].
        split; [by right|].
        destruct (holds s q) eqn:Hsq; [done|].
        assert (q <> k) by (intros ->; congruence).
        rewrite release_other in Hq by done. congruence.
      * intros [[->|Hin] Hq]; [by left|].
        destruct (decide (q = k)) as [->|Hne]; [by left|].
        right. split; [done|]. by rewrite release_other.
    + rewrite elem_of_cons, IH. split; [by intros [? ?]; auto|].
      intros [[->|Hin] Hq]; [congruence|done].
Qed.

(** The log never names a key twice. *)
Lemma sweep_log_NoDup (s : S) (ks : list K) :
  NoDup (sweep holds release s ks).2.
Proof.
  revert s. induction ks as [|k ks IH]; intros s; simpl; [constructor|].
  destruct (holds s k) eqn:Hk; simpl; [|by apply IH].
  constructor; [|by apply IH].
  rewrite sweep_log_elem. intros [_ Hh]. by rewrite release_same in Hh.
Qed.

End SweepFacts.

(** ** Properties of the room server *)

Module RoomServerFacts.
Import Board Wire RoomServer TokenAuthorityFacts.

Lemma joined_truthy (c : Conn) (r : string) :
  joined c r -> falsy (currentRoom c) = false.
Proof.
  intros [-> Hr]. simpl. by apply bool_decide_eq_false.
Qed.

Lemma request_token_joined (e : Env) (s : Server) (c : Conn) (r p : string) :
  joined c r ->
  request_token e s c p
  = (with_tokens s (<[p := mkToken (sid c) (now e)]> (tokens s)),
     [(to_socket (sid c), token_granted p);
      (to_room_others r (sid c), piece_locked p (sid c))]).
Proof.
  intros Hj. unfold request_token. rewrite (joined_truthy _ _ Hj).
  by destruct Hj as [-> _].
Qed.

Lemma request_token_rooms (e : Env) (s : Server) (c : Conn) (p : string) :
  rooms (request_token e s c p).1 = rooms s.
Proof.
  unfold request_token. destruct (currentRoom c); [|done].
  by destruct (falsy _).
Qed.

Lemma release_token_rooms (s : Server) (c : Conn) (p : string) :
  rooms (release_token s c p).1 = rooms s.
Proof.
  unfold release_token. destruct (currentRoom c); [|done].
  destruct (falsy _); [done|]. by destruct (releaseToken _ _ _).
Qed.

Lemma request_token_frame (e : Env) (s : Server) (c : Conn) (p q : string) :
  q <> p -> tokens (request_token e s c p).1 !! q = tokens s !! q.
Proof.
  intros Hq. unfold request_token. destruct (currentRoom c); [|done].
  destruct (falsy _); [done|]. simpl. by rewrite lookup_insert_ne.
Qed.

Lemma release_token_frame (s : Server) (c : Conn) (p q : string) :
  q <> p -> tokens (release_token s c p).1 !! q = tokens s !! q.
Proof.
  intros Hq. unfold release_token. destruct (currentRoom c); [|done].
  destruct (falsy _); [done|].
  pose proof (releaseToken_frame (tokens s) p (sid c) q Hq) as Hf.
  by destruct (releaseToken _ _ _).
Qed.

(** The disconnect loop is the release loop over the token map. *)
Lemma room_disconnect_fold_sweep (c : Conn) (ks : list string) (tk : Tokens)
    (out : list Emission) :
  foldl (disconnect_visit c) (tk, out) ks
  = let w := sweep (fun tk k => owns tk (sid c) k)
               (fun tk k => (releaseToken tk k (sid c)).2) tk ks in
    (w.1, out ++ mjoin (unlock_notice c <$> w.2)).
Proof.
  revert tk out. induction ks as [|k ks IH]; intros tk out; simpl.
  - by rewrite app_nil_r.
  - unfold disconnect_visit at 2, owns. simpl.
    destruct (tk !! k) as [t|] eqn:Hk; [|apply IH].
    case_bool_decide; [|apply IH].
    rewrite IH. simpl. by rewrite <-app_assoc.
Qed.

Lemma owns_release_same (uid : string) (tk : Tokens) (k : string) :
  owns (releaseToken tk k uid).2 uid k = false.
Proof.
  unfold releaseToken, owns. destruct (tk !! k) as [t|] eqn:Hk.
  - case_bool_decide as Ho; simpl.
    + by rewrite lookup_delete_eq.
    + rewrite Hk. by apply bool_decide_eq_false.
  - simpl. by rewrite Hk.
Qed.

Lemma owns_release_other (uid : string) (tk : Tokens) (k k' : string) :
  k' <> k -> owns (releaseToken tk k uid).2 uid k' = owns tk uid k'.
Proof.
  intros Hne. unfold owns. by rewrite releaseToken_frame.
Qed.

Lemma keys_of_tokens (tk : Tokens) (q : string) :
  q ∈ (map_to_list tk).*1 <-> is_Some (tk !! q).
Proof.
  rewrite list_elem_of_fmap. split.
  - intros ([k t] & -> & Hin). apply elem_of_map_to_list in Hin. eauto.
  - intros [t Ht]. exists (q, t). split; [done|].
    by apply elem_of_map_to_list.
Qed.

Lemma unlock_notices_joined (c : Conn) (r : string) (l : list string) :
  joined c r ->
  mjoin (unlock_notice c <$> l)
  = (fun q => (to_room r, piece_unlocked q)) <$> l.
Proof.
  intros Hj. induction l as [|k l IH]; [done|].
  rewrite fmap_cons. simpl. rewrite IH. unfold unlock_notice.
  rewrite (joined_truthy _ _ Hj). by destruct Hj as [-> _].
Qed.

(** The disconnect handler of the room server: no token owned by the
    connection is left, every other token is left as it was and the room
    files are not touched. *)
Lemma room_disconnect_tokens (s : Server) (c : Conn) :
  (forall q, owns (tokens (disconnect s c).1) (sid c) q = false)
  /\ (forall q, owns (tokens s) (sid c) q = false ->
        tokens (disconnect s c).1 !! q = tokens s !! q)
  /\ rooms (disconnect s c).1 = rooms s.
Proof.
  unfold disconnect. rewrite room_disconnect_fold_sweep.
  set (holds := fun (tk : Tokens) k => owns tk (sid c) k).
  set (release := fun (tk : Tokens) k => (releaseToken tk k (sid c)).2).
  set (ks := (map_to_list (tokens s)).*1).
  assert (Hsame : forall tk k, holds (release tk k) k = false)
    by (intros; apply owns_release_same).
  assert (Hother : forall tk k k', k' <> k ->
            holds (release tk k) k' = holds tk k')
    by (intros; by apply owns_release_other).
  simpl. split; [|split; [|done]].
  - intros q. destruct (decide (q ∈ ks)) as [Hin|Hnin].
    + exact (sweep_releases_all holds release Hsame Hother _ _ _ Hin).
    + apply (sweep_unheld_stays holds release Hother (tokens s) ks q).
      unfold holds, owns. destruct (tokens s !! q) as [t|] eqn:Hq; [|done].
      exfalso. apply Hnin, keys_of_tokens. eauto.
  - intros q Hq.
    apply (sweep_unheld_frame holds release Hother (fun tk => tk !! q)
             (tokens s) ks q); [|done].
    intros tk k Hk. unfold release. by apply releaseToken_frame.
Qed.

(** For a connection that has joined a room, the emissions of the
    disconnect handler are one [piece-unlocked] to the room for each piece
    whose token the connection owned, followed by [player-left]. *)
Lemma room_disconnect_emissions (s : Server) (c : Conn) (r : string) :
  joined c r ->
  exists held : list string,
    NoDup held
    /\ (forall q, q ∈ held <-> owns (tokens s) (sid c) q = true)
    /\ (disconnect s c).2
       = ((fun q => (to_room r, piece_unlocked q)) <$> held)
         ++ [(to_room_others r (sid c), player_left (sid c))].
Proof.
  intros Hj. unfold disconnect. rewrite room_disconnect_fold_sweep.
  set (holds := fun (tk : Tokens) k => owns tk (sid c) k).
  set (release := fun (tk : Tokens) k => (releaseToken tk k (sid c)).2).
  set (ks := (map_to_list (tokens s)).*1).
  assert (Hsame : forall tk k, holds (release tk k) k = false)
    by (intros; apply owns_release_same).
  assert (Hother : forall tk k k', k' <> k ->
            holds (release tk k) k' = holds tk k')
    by (intros; by apply owns_release_other).
  simpl. exists (sweep holds release (tokens s) ks).2. split; [|split].
  - by apply sweep_log_NoDup.
  - intros q. rewrite (sweep_log_elem holds release Hother).
    split; [by intros [_ ?]|]. intros Hq. split; [|done].
    apply keys_of_tokens. unfold holds, owns in Hq.
    destruct (tokens s !! q); [eauto|done].
  - rewrite (unlock_notices_joined c r) by done.
    rewrite (joined_truthy _ _ Hj). by destruct Hj as [-> _].
Qed.

Local Ltac split_handler :=
  repeat match goal with
         | |- context [match ?x with _ => _ end] => destruct x eqn:?
         | |- context [if ?b then _ else _] => destruct b eqn:?
         end;
  simpl in *; try discriminate.

Lemma unlock_notices_never_denied (c : Conn) (l : list string) :
  never_denied (mjoin (unlock_notice c <$> l)).
Proof.
  induction l as [|k l IH]; [constructor|].
  rewrite fmap_cons. simpl. apply Forall_app. split; [|done].
  unfold unlock_notice. split_handler; repeat constructor.
Qed.

Lemma room_disconnect_never_denied (s : Server) (c : Conn) :
  never_denied (disconnect s c).2.
Proof.
  unfold disconnect. rewrite room_disconnect_fold_sweep. simpl.
  apply Forall_app. split; [apply unlock_notices_never_denied|].
  split_handler; repeat constructor.
Qed.

Local Ltac by_handler_cases :=
  split_handler; repeat constructor.

(** No handler of the room server ever emits [token-denied]. *)
Lemma room_never_denied (e : Env) (s : Server) (c : Conn) (ev : ClientEvent) :
  never_denied (handle e s c ev).2.
Proof.
  destruct ev as [code|p|p|data|data|p|]; simpl.
  - assert (never_denied (join_room e s c code).2)
      by (unfold join_room; by_handler_cases).
    by destruct (join_room e s c code).
  - assert (never_denied (request_token e s c p).2)
      by (unfold request_token, grantToken; by_handler_cases).
    by destruct (request_token e s c p).
  - assert (never_denied (release_token s c p).2)
      by (unfold release_token; by_handler_cases).
    by destruct (release_token s c p).
  - assert (never_denied (move_piece e s c data).2)
      by (unfold move_piece; by_handler_cases).
    by destruct (move_piece e s c data).
  - assert (never_denied (add_piece e s c data).2)
      by (unfold add_piece, grantToken; by_handler_cases).
    by destruct (add_piece e s c data).
  - assert (never_denied (remove_piece e s c p).2)
      by (unfold remove_piece; by_handler_cases).
    by destruct (remove_piece e s c p).
  - pose proof (room_disconnect_never_denied s c).
    by destruct (disconnect s c).
Qed.

(** *** The invariant of the room server: token holders have joined *)

Lemma hasAuthority_subset (tk : Tokens) now p c q t :
  (hasAuthority tk now p c).2 !! q = Some t -> tk !! q = Some t.
Proof.
  unfold hasAuthority. destruct (tk !! p) as [t'|]; [|done].
  destruct (now - timestamp t' >? 30000); [|done].
  simpl. by intros [_ ?]%lookup_delete_Some.
Qed.

Lemma releaseToken_subset (tk : Tokens) p c q t :
  (releaseToken tk p c).2 !! q = Some t -> tk !! q = Some t.
Proof.
  unfold releaseToken. destruct (tk !! p) as [t'|]; [|done].
  case_bool_decide; [|done]. simpl. by intros [_ ?]%lookup_delete_Some.
Qed.

Lemma sweep_tokens_subset (uid : string) (ks : list string) (tk : Tokens) q t :
  (sweep (fun tk k => owns tk uid k)
     (fun tk k => (releaseToken tk k uid).2) tk ks).1 !! q = Some t ->
  tk !! q = Some t.
Proof.
  revert tk. induction ks as [|k ks IH]; intros tk; simpl; [done|].
  destruct (owns tk uid k); simpl; [|by apply IH].
  intros Hq%IH. by apply releaseToken_subset in Hq.
Qed.

(** What survives a disconnect was there before and is not the leaving
    connection's. *)
Lemma room_disconnect_survivors (s : Server) (c : Conn) p t :
  tokens (disconnect s c).1 !! p = Some t ->
  tokens s !! p = Some t /\ owner t <> sid c.
Proof.
  intros Hp. split.
  - revert Hp. unfold disconnect. rewrite room_disconnect_fold_sweep. simpl.
    apply sweep_tokens_subset.
  - destruct (room_disconnect_tokens s c) as (Hnone & _ & _).
    specialize (Hnone p). unfold owns in Hnone. rewrite Hp in Hnone.
    by apply bool_decide_eq_false in Hnone.
Qed.

Lemma truthy_joined (c : Conn) (r : string) :
  currentRoom c = Some r -> falsy (currentRoom c) = false -> joined c r.
Proof.
  intros Hc Hf. split; [done|]. rewrite Hc in Hf. simpl in Hf.
  by apply bool_decide_eq_false in Hf.
Qed.

(** A token found after a handler ran was there before, or belongs to the
    sender, who has joined a room. *)
Lemma tokens_origin (e : Env) (s : Server) (c : Conn) (ev : ClientEvent) p t :
  tokens (handle e s c ev).1.1 !! p = Some t ->
  tokens s !! p = Some t \/ (owner t = sid c /\ exists r, joined c r).
Proof.
  destruct ev as [code|q|q|data|data|q|]; simpl.
  - destruct (join_room e s c code). by left.
  - unfold request_token. destruct (currentRoom c) as [r|] eqn:Hc; [|by left].
    destruct (falsy (Some r)) eqn:Hf; [by left|]. simpl.
    intros [[-> <-]|[_ ?]]%lookup_insert_Some; [|by left].
    right. split; [done|]. exists r. apply truthy_joined; by rewrite ?Hc.
  - unfold release_token. destruct (currentRoom c) as [r|]; [|by left].
    destruct (falsy (Some r)); [by left|].
    pose proof (releaseToken_subset (tokens s) q (sid c) p t) as Hsub.
    destruct (releaseToken _ _ _). simpl. auto.
  - unfold move_piece. destruct data as [d|]; [|by left].
    destruct (currentRoom c) as [r|]; [|by left].
    destruct (falsy (Some r)); [by left|].
    pose proof (hasAuthority_subset (tokens s) (now e) (pieceId d) (sid c)
                  p t) as Hsub.
    destruct (hasAuthority _ _ _ _) as [ok tk]. simpl in Hsub.
    destruct ok; simpl; [|by auto].
    unfold getRoom, saveRoom. simpl.
    destruct (diskOk e); simpl; [|by auto].
    destruct (rooms s !! r); simpl; auto.
  - unfold add_piece. destruct data as [d|]; [|by left].
    destruct (currentRoom c) as [r|] eqn:Hc; [|by left].
    destruct (falsy (Some r)) eqn:Hf; [by left|].
    unfold getRoom, saveRoom. destruct (diskOk e); simpl; [|by left].
    destruct (rooms s !! r); simpl; [|by left].
    intros [[_ <-]|[_ ?]]%lookup_insert_Some; [|by left].
    right. split; [done|]. exists r. apply truthy_joined; by rewrite ?Hc.
  - unfold remove_piece. destruct (currentRoom c) as [r|]; [|by left].
    destruct (falsy (Some r)); [by left|].
    pose proof (hasAuthority_subset (tokens s) (now e) q (sid c) p t) as Hsub.
    destruct (hasAuthority _ _ _ _) as [ok tk]. simpl in Hsub.
    destruct ok; simpl; [|by auto].
    unfold getRoom, saveRoom. simpl.
    destruct (diskOk e); simpl; [|by auto].
    destruct (rooms s !! r); simpl; [|by auto].
    pose proof (releaseToken_subset tk q (sid c) p t) as Hsub2.
    destruct (releaseToken _ _ _). simpl in *. auto.
  - intros Hp. left.
    assert (tokens (disconnect s c).1 !! p = Some t) as Hd
      by by destruct (disconnect s c).
    by apply room_disconnect_survivors in Hd as [? _].
Qed.

(** A handler keeps the socket id, and a connection that has joined a room
    is still in some room afterwards. *)
Lemma conn_after (e : Env) (s : Server) (c : Conn) (ev : ClientEvent) :
  sid (handle e s c ev).1.2 = sid c
  /\ (forall r, joined c r -> exists r', joined (handle e s c ev).1.2 r').
Proof.
  destruct ev as [code|q|q|data|data|q|]; simpl.
  - unfold join_room. destruct code as [r'|]; simpl; [|by eauto].
    destruct (bool_decide (r' = "")) eqn:Hr'; simpl; [by eauto|].
    apply bool_decide_eq_false in Hr'.
    assert (joined (mkConn (sid c) (Some r')) r') by by split.
    destruct (getRoom e s r'); simpl; eauto.
  - destruct (request_token e s c q); simpl; eauto.
  - destruct (release_token s c q); simpl; eauto.
  - destruct (move_piece e s c data); simpl; eauto.
  - destruct (add_piece e s c data); simpl; eauto.
  - destruct (remove_piece e s c q); simpl; eauto.
  - destruct (disconnect s c); simpl; eauto.
Qed.

Lemma holders_joined_step (e : Env) (w : World) (i : Input) :
  holders_joined w -> holders_joined (step e w i).1.
Proof.
  intros Hinv. destruct i as [uid|uid ev]; simpl.
  - destruct (conns w !! uid) eqn:Hu; [done|].
    intros p t Hp. simpl in *. destruct (Hinv p t Hp) as (r & Hr & Hne).
    exists r. split; [|done]. rewrite lookup_insert_ne; [done|].
    intros Heq. rewrite <-Heq in Hr. congruence.
  - destruct (conns w !! uid) as [room|] eqn:Hu; [|done].
    set (c := mkConn uid room). simpl. intros p t Hp.
    destruct (conn_after e (server w) c ev) as [_ Hstay].
    assert (Hkeep : forall r, tokens (server w) !! p = Some t ->
              owner t <> uid ->
              conns w !! owner t = Some (Some r) ->
              <[uid := currentRoom (handle e (server w) c ev).1.2]> (conns w)
                !! owner t = Some (Some r))
      by (intros; by rewrite lookup_insert_ne).
    assert (Hself : forall r, joined c r -> owner t = uid ->
              exists r',
                <[uid := currentRoom (handle e (server w) c ev).1.2]>
                  (conns w) !! owner t = Some (Some r') /\ r' <> "").
    { intros r Hj ->. destruct (Hstay r Hj) as (r' & Hc' & Hne').
      exists r'. by rewrite lookup_insert_eq, Hc'. }
    assert (ev = ev_disconnect \/ ev <> ev_disconnect) as [->|Hev]
      by (destruct ev; auto; right; discriminate).
    + simpl in Hp.
      assert (tokens (disconnect (server w) c).1 !! p = Some t) as Hd
        by by destruct (disconnect (server w) c).
      apply room_disconnect_survivors in Hd as [Hold Hown].
      destruct (Hinv p t Hold) as (r & Hr & Hne).
      exists r. split; [|done]. simpl. by rewrite lookup_delete_ne.
    + assert (Hgoal : exists r,
                <[uid := currentRoom (handle e (server w) c ev).1.2]>
                  (conns w) !! owner t = Some (Some r) /\ r <> "").
      { destruct (tokens_origin e (server w) c ev p t Hp)
          as [Hold|[Hown [r Hj]]]; [|by eauto].
        destruct (Hinv p t Hold) as (r & Hr & Hne).
        destruct (decide (owner t = uid)) as [Heq|Hneq]; [|by eauto].
        apply (Hself r); [|done]. split; [|done].
        simpl. rewrite Heq in Hr. congruence. }
      by destruct ev.
Qed.

(** In every reachable world each token belongs to a live socket that has
    joined a room. *)
Lemma reachable_holders_joined (w : World) :
  reachable w -> holders_joined w.
Proof.
  induction 1 as [files|w e i _ IH|w files _ IH].
  - intros p t Hp. simpl in Hp. by rewrite lookup_empty in Hp.
  - by apply holders_joined_step.
  - exact IH.
Qed.

Lemma omap_unlocked (tgt : Target) (l : list string) :
  omap unlocked_id ((fun q => (tgt, piece_unlocked q)) <$> l) = l.
Proof.
  induction l as [|k l IH]; [done|].
  rewrite fmap_cons. simpl. f_equal. exact IH.
Qed.

Lemma omap_unlocked_unjoined (c : Conn) (l : list string) :
  ~ (exists r, joined c r) ->
  omap unlocked_id (mjoin (unlock_notice c <$> l)) = [].
Proof.
  intros Hnj. induction l as [|k l IH]; [done|].
  rewrite fmap_cons. simpl. rewrite omap_app, IH, app_nil_r.
  unfold unlock_notice. destruct (currentRoom c) as [r|] eqn:Hc; [|done].
  simpl. case_bool_decide as Hr; [done|].
  exfalso. apply Hnj. exists r. by split.
Qed.

(** In a reachable world the disconnect handler of any live socket emits
    exactly one [piece-unlocked] for each piece whose token the socket
    owns, and no other. *)
Lemma reachable_disconnect_unlocks (w : World) (uid : string)
    (room : option string) :
  reachable w ->
  conns w !! uid = Some room ->
  exists held : list string,
    NoDup held
    /\ (forall q, q ∈ held <-> owns (tokens (server w)) uid q = true)
    /\ omap unlocked_id (disconnect (server w) (mkConn uid room)).2 = held.
Proof.
  intros Hreach Hu. apply reachable_holders_joined in Hreach.
  set (c := mkConn uid room).
  assert ((exists r, joined c r) \/ ~ (exists r, joined c r))
    as [[r Hj]|Hnj].
  { destruct room as [r|]; [|right; by intros (r & [=] & _)].
    destruct (decide (r = "")) as [->|Hr].
    - right. intros (r & [= <-] & Hne). done.
    - left. exists r. by split. }
  - destruct (room_disconnect_emissions (server w) c r Hj)
      as (held & Hnd & Hin & Hout).
    exists held. split; [done|]. split; [done|].
    rewrite Hout, omap_app, omap_unlocked. simpl. by rewrite app_nil_r.
  - assert (Hnone : forall q, owns (tokens (server w)) uid q = false).
    { intros q. unfold owns.
      destruct (tokens (server w) !! q) as [t|] eqn:Hq; [|done].
      apply bool_decide_eq_false. intros Ho.
      destruct (Hreach q t Hq) as (r & Hr & Hne).
      apply Hnj. exists r. split; [|done]. simpl. congruence. }
    exists []. split; [constructor|]. split.
    + intros q. rewrite Hnone. split; [by inversion 1|done].
    + unfold disconnect. rewrite room_disconnect_fold_sweep. simpl.
      rewrite omap_app, omap_unlocked_unjoined by done. simpl.
      destruct room as [r|]; [|done]. by destruct (falsy (Some r)).
Qed.

(** A move without authority, room server: the sender alone gets one
    [error], and no room file changes. *)
Lemma room_move_rejected (e : Env) (s : Server) (c : Conn) (d : PieceData) :
  (hasAuthority (tokens s) (now e) (pieceId d) (sid c)).1 = false ->
  (exists msg, (move_piece e s c (Some d)).2
               = [(to_socket (sid c), error msg)])
  /\ rooms (move_piece e s c (Some d)).1 = rooms s.
Proof.
  intros Hno. unfold move_piece.
  destruct (currentRoom c) as [r|]; [|by eauto].
  destruct (falsy (Some r)); [by eauto|].
  destruct (hasAuthority _ _ _ _) as [ok tk]. simpl in Hno. subst ok.
  simpl. eauto.
Qed.

(** An authorised move of an id that is not among the room's pieces,
    room server: the handler appends a new piece with that id, the given
    position and asset, owned by the sender, and announces the move to the
    room. *)
Lemma room_move_unknown_appends (e : Env) (s : Server) (c : Conn)
    (r : string) (d : PieceData) (game : Game) :
  joined c r ->
  (hasAuthority (tokens s) (now e) (pieceId d) (sid c)).1 = true ->
  getRoom e s r = Some game ->
  findIndex (pieces game) (pieceId d) = None ->
  move_piece e s c (Some d)
  = (mkServer (tokens s)
       (<[roomCode game :=
            mkGame (roomCode game)
              (pieces game ++
                 [mkPiece (pieceId d) (dx d) (dy d) (dassetUrl d)
                    (sid c) None])
              (gameCreatedAt game)]> (rooms s)),
     [(to_room r, piece_moved (pieceId d) (dx d) (dy d) (sid c))]).
Proof.
  intros Hj Hok Hroom Hnone. unfold move_piece.
  rewrite (joined_truthy _ _ Hj). destruct Hj as [Hc _]. rewrite Hc.
  pose proof (hasAuthority_true_state _ _ _ _ Hok) as Hst.
  destruct (hasAuthority _ _ _ _) as [ok tk]. simpl in Hok, Hst. subst.
  simpl. replace (with_tokens s (tokens s)) with s by by destruct s.
  rewrite Hroom. unfold moved_pieces. rewrite Hnone.
  unfold saveRoom, getRoom in *. destruct (diskOk e); [done|discriminate].
Qed.

(** C8 as stated fails on the room server: X holds the token of "ghost",
    which is not on the board of room "R"; X's move-piece adds it. *)
Lemma room_move_creates_piece : ~ move_unknown_keeps_pieces_statement.
Proof.
  intros Hst.
  specialize (Hst (mkEnv 1000 true)
                (mkServer {["ghost" := mkToken "X" 0]}
                   {["R" := mkGame "R" [] 0]})
                (mkConn "X" (Some "R")) "R"
                (mkPieceData "ghost" 5 7 None) (mkGame "R" [] 0)).
  assert (Hpre : joined (mkConn "X" (Some "R")) "R") by by split.
  specialize (Hst Hpre ltac:(by vm_compute) ltac:(by vm_compute)
                ltac:(by vm_compute)).
  apply (f_equal (fun m : gmap string Game => pieces <$> m !! "R")) in Hst.
  vm_compute in Hst. discriminate.
Qed.

(** C5 as stated fails: c sits in room "B" and holds a valid token for
    "p1"; a request-token for "p1" sent from room "A" takes it away. *)
Lemma token_map_is_shared_across_rooms : ~ rooms_isolate_tokens_statement.
Proof.
  intros Hst.
  specialize (Hst (mkEnv 1000 true)
                (mkServer {["p1" := mkToken "c" 0]} ∅)
                (mkConn "a" (Some "A")) (mkConn "c" (Some "B"))
                "A" "B" "p1" (ev_request_token "p1") 1000).
  assert (Ha : joined (mkConn "a" (Some "A")) "A") by (split; done).
  assert (Hc : joined (mkConn "c" (Some "B")) "B") by (split; done).
  specialize (Hst Ha Hc ltac:(done) ltac:(done) (or_introl eq_refl)).
  vm_compute in Hst. discriminate.
Qed.

(** C5, amended: the token map is one per process and keyed by piece id
    alone, not by room.  A request-token or release-token for piece [p],
    sent from any room, leaves every room file as it was and leaves the
    answer of a check on any other piece [q] unchanged for every connection
    and instant; so does a check on [p] itself.  (For [q = p] the answer
    can change, across rooms too.) *)
Theorem token_events_touch_one_piece (e : Env) (s : Server) (a : Conn)
    (p q : string) (ev : ClientEvent) (c : string) (now' : Z) :
  ev = ev_request_token p \/ ev = ev_release_token p ->
  q <> p ->
  rooms (handle e s a ev).1.1 = rooms s
  /\ (hasAuthority (tokens (handle e s a ev).1.1) now' q c).1
     = (hasAuthority (tokens s) now' q c).1
  /\ (hasAuthority (hasAuthority (tokens s) (now e) p (sid a)).2 now' q c).1
     = (hasAuthority (tokens s) now' q c).1.
Proof.
  intros Hev Hq. split; [|split].
  - destruct Hev as [-> | ->]; simpl.
    + pose proof (request_token_rooms e s a p).
      by destruct (request_token e s a p).
    + pose proof (release_token_rooms s a p).
      by destruct (release_token s a p).
  - apply hasAuthority_lookup_ext. destruct Hev as [-> | ->]; simpl.
    + pose proof (request_token_frame e s a p q Hq).
      by destruct (request_token e s a p).
    + pose proof (release_token_frame s a p q Hq).
      by destruct (release_token s a p).
  - apply hasAuthority_lookup_ext. by apply hasAuthority_frame.
Qed.

Lemma token_events_touch_one_piece_witness :
  let e := mkEnv 1000 true in
  let s := mkServer {["p1" := mkToken "c" 0; "p2" := mkToken "c" 0]}
             {["B" := mkGame "B" [] 0]} in
  let a := mkConn "a" (Some "A") in
  rooms (handle e s a (ev_request_token "p1")).1.1 = rooms s
  /\ (hasAuthority (tokens (handle e s a (ev_request_token "p1")).1.1)
        2000 "p2" "c").1
     = (hasAuthority (tokens s) 2000 "p2" "c").1
  /\ (hasAuthority (hasAuthority (tokens s) (now e) "p1" (sid a)).2
        2000 "p2" "c").1
     = (hasAuthority (tokens s) 2000 "p2" "c").1.
Proof.
  intros e s a.
  apply (token_events_touch_one_piece e s a "p1" "p2"
           (ev_request_token "p1") "c" 2000).
  - by left.
  - discriminate.
Defined.

End RoomServerFacts.

(** ** Properties of the token service and of the single-board server *)

Module BoardServerFacts.
Import Board Wire Redis GameService BoardServer.
Import TokenService.

Section WithSortedSet.
Context `{SortedSet Snapshot}.

Lemma tokenKey_inj (p q : string) : tokenKey p = tokenKey q -> p = q.
Proof. unfold tokenKey. apply String.app_inj. Qed.

(** Checks on the Redis-backed service are exclusive as well. *)
Lemma service_hasAuthority_exclusive (r : Store) now p c1 c2 :
  hasAuthority r now p c1 = true -> hasAuthority r now p c2 = true -> c1 = c2.
Proof.
  unfold hasAuthority. destruct (get r now (tokenKey p)) as [o|]; [|done].
  intros H1%bool_decide_eq_true H2%bool_decide_eq_true. congruence.
Qed.

(** The Redis-backed grant is as unconditional as the in-memory one:
    whatever the keyspace holds, a served write installs the caller as
    owner for [TOKEN_EXPIRY] seconds and the caller then passes the check. *)
Lemma service_grantToken_up (r : Store) now p c :
  up r = true ->
  (grantToken r now p c).1 = true
  /\ strings (grantToken r now p c).2 !! tokenKey p
     = Some (c, Some (now + TOKEN_EXPIRY * 1000))
  /\ hasAuthority (grantToken r now p c).2 now p c = true.
Proof.
  intros Hup. unfold grantToken, hasAuthority, set_ex, get. rewrite Hup.
  simpl. rewrite lookup_insert_eq. simpl.
  replace (now <=? now + TOKEN_EXPIRY * 1000) with true
    by (unfold TOKEN_EXPIRY; lia).
  split; [done|]. split; [done|]. by apply bool_decide_eq_true.
Qed.

Lemma service_release_same (r : Store) now sid k :
  hasAuthority (releaseToken r now k sid).2 now k sid = false.
Proof.
  unfold releaseToken, hasAuthority, get, del.
  destruct (up r) eqn:Hup; simpl; [|by rewrite Hup].
  case_bool_decide as Ho; simpl.
  - rewrite Hup. by apply bool_decide_eq_false.
  - rewrite lookup_delete_eq. by apply bool_decide_eq_false.
Qed.

Lemma service_release_strings (r : Store) now sid k key :
  key <> tokenKey k ->
  strings (releaseToken r now k sid).2 !! key = strings r !! key.
Proof.
  intros Hne. unfold releaseToken, get, del.
  destruct (up r); simpl; [|done].
  case_bool_decide; simpl; [done|]. by rewrite lookup_delete_ne.
Qed.

Lemma service_release_up (r : Store) now sid k :
  up (releaseToken r now k sid).2 = up r.
Proof.
  unfold releaseToken, get, del. destruct (up r) eqn:Hup; simpl; [|done].
  by case_bool_decide.
Qed.

Lemma service_hasAuthority_ext (r1 r2 : Store) now q sid :
  up r1 = up r2 ->
  strings r1 !! tokenKey q = strings r2 !! tokenKey q ->
  hasAuthority r1 now q sid = hasAuthority r2 now q sid.
Proof.
  intros Hup Hs. unfold hasAuthority, get. by rewrite Hup, Hs.
Qed.

Lemma service_release_other (r : Store) now sid k k' :
  k' <> k ->
  hasAuthority (releaseToken r now k sid).2 now k' sid
  = hasAuthority r now k' sid.
Proof.
  intros Hne. apply service_hasAuthority_ext.
  - apply service_release_up.
  - apply service_release_strings. intros Heq%tokenKey_inj. done.
Qed.

(** The disconnect loop is the release loop over the ids of the board's
    pieces. *)
Lemma board_disconnect_fold_sweep now sid (ps : list Piece) (r : Store)
    (out : list Emission) :
  foldl (disconnect_visit now sid) (r, out) ps
  = let w := sweep (fun r k => hasAuthority r now k sid)
               (fun r k => (releaseToken r now k sid).2) r (id <$> ps) in
    (w.1, out ++ ((fun q => (to_all, piece_unlocked q)) <$> w.2)).
Proof.
  revert r out. induction ps as [|p ps IH]; intros r out; simpl.
  - by rewrite app_nil_r.
  - unfold disconnect_visit at 2. simpl.
    destruct (hasAuthority r now (id p) sid); [|apply IH].
    rewrite IH. simpl. by rewrite <-app_assoc.
Qed.

(** The disconnect handler of the single-board server: among the pieces of
    the current board no token of the connection is left; a token on an id
    that is not on the board, or that the connection did not hold, is left
    in place; and the emissions are one [piece-unlocked] to everybody for
    each board piece the connection had authority over, followed by
    [player-left]. *)
Lemma board_disconnect_spec (r : Store) (now : Z) (sid : string) :
  (forall q, q ∈ id <$> board r now ->
     hasAuthority (disconnect r now sid).1 now q sid = false)
  /\ (forall q, q ∉ id <$> board r now \/ hasAuthority r now q sid = false ->
        strings (disconnect r now sid).1 !! tokenKey q
        = strings r !! tokenKey q)
  /\ exists held : list string,
       NoDup held
       /\ (forall q, q ∈ held <->
             q ∈ id <$> board r now /\ hasAuthority r now q sid = true)
       /\ (disconnect r now sid).2
          = ((fun q => (to_all, piece_unlocked q)) <$> held)
            ++ [(to_others sid, player_left sid)].
Proof.
  unfold disconnect, board. rewrite board_disconnect_fold_sweep.
  set (holds := fun (r : Store) k => hasAuthority r now k sid).
  set (release := fun (r : Store) k => (releaseToken r now k sid).2).
  set (ks := id <$> pieces (getGameState r now DEFAULT_GAME_ID)).
  assert (Hsame : forall r k, holds (release r k) k = false)
    by (intros; apply service_release_same).
  assert (Hother : forall r k k', k' <> k ->
            holds (release r k) k' = holds r k')
    by (intros; by apply service_release_other).
  simpl. split; [|split].
  - intros q Hin.
    exact (sweep_releases_all holds release Hsame Hother _ _ _ Hin).
  - intros q [Hnin|Hno].
    + apply (sweep_frame_on holds release
               (fun r : Store => strings r !! tokenKey q) r ks).
      intros r' k Hk. unfold release. apply service_release_strings.
      intros Heq%tokenKey_inj. by subst.
    + apply (sweep_unheld_frame holds release Hother
               (fun r : Store => strings r !! tokenKey q) r ks q); [|done].
      intros r' k Hk. unfold release. apply service_release_strings.
      intros Heq%tokenKey_inj. by subst.
  - exists (sweep holds release r ks).2. split; [|split; [|done]].
    + by apply sweep_log_NoDup.
    + intros q. by rewrite (sweep_log_elem holds release Hother).
Qed.

(** [updatePiece] on an id that no piece of the board carries: [false],
    and nothing is written. *)
Lemma updatePiece_unknown (r : Store) (now : Z) (pid : string) (u : Updates) :
  findIndex (board r now) pid = None ->
  updatePiece r now pid u DEFAULT_GAME_ID = (false, r).
Proof. unfold updatePiece, board. by intros ->. Qed.

(** An authorised move of an id that is not on the board, single-board
    server: the store is left as it was (no piece is created); the move is
    still announced. *)
Lemma board_move_unknown_noop (r : Store) (now : Z) (sid : string)
    (d : PieceData) :
  hasAuthority r now (pieceId d) sid = true ->
  findIndex (board r now) (pieceId d) = None ->
  move_piece r now sid (Some d)
  = (r, [(to_all, piece_moved (pieceId d) (dx d) (dy d) sid)]).
Proof.
  intros Hok Hnone. unfold move_piece. rewrite Hok. simpl.
  by rewrite updatePiece_unknown.
Qed.

(** A move without authority, single-board server. *)
Lemma board_move_rejected (r : Store) (now : Z) (sid : string)
    (d : PieceData) :
  hasAuthority r now (pieceId d) sid = false ->
  move_piece r now sid (Some d)
  = (r, [(to_socket sid, error "No authority to move this piece")]).
Proof. intros Hno. unfold move_piece. by rewrite Hno. Qed.

(** The two outcomes of request-token on the single-board server. *)
Lemma board_request_token_up (r : Store) (now : Z) (sid p : string) :
  up r = true ->
  (request_token r now sid p).2
  = [(to_socket sid, token_granted p); (to_others sid, piece_locked p sid)].
Proof.
  intros Hup. unfold request_token, grantToken, set_ex. by rewrite Hup.
Qed.

Lemma board_request_token_down (r : Store) (now : Z) (sid p : string) :
  up r = false ->
  request_token r now sid p = (r, [(to_socket sid, token_denied p)]).
Proof.
  intros Hup. unfold request_token, grantToken, set_ex. by rewrite Hup.
Qed.

Local Ltac by_board_cases :=
  repeat match goal with
         | |- context [match ?x with _ => _ end] => destruct x eqn:?
         | |- context [if ?b then _ else _] => destruct b eqn:?
         end;
  simpl in *; try discriminate; repeat constructor.

(** Apart from request-token, no handler of the single-board server emits
    [token-denied]. *)
Lemma board_others_never_denied (r : Store) (now : Z) (sid : string)
    (ev : ClientEvent) :
  (forall p, ev <> ev_request_token p) ->
  never_denied (handle r now sid ev).2.
Proof.
  intros Hev. destruct ev as [|p|p|data|data|data|p|]; simpl.
  - repeat constructor.
  - by destruct (Hev p).
  - unfold release_token. by_board_cases.
  - unfold drag_piece. by_board_cases.
  - unfold move_piece. by_board_cases.
  - unfold add_piece. by_board_cases.
  - unfold remove_piece. by_board_cases.
  - unfold disconnect. rewrite board_disconnect_fold_sweep. simpl.
    apply Forall_app. split; [|repeat constructor].
    apply Forall_fmap. by apply Forall_true.
Qed.

End WithSortedSet.

End BoardServerFacts.

(** ** The sync protocol: what the handlers of both servers guarantee *)

Module SyncProtocol.
Import Board Wire Redis GameService Statements.
Import ListSortedSet.

(** C6: a move-piece from a connection that fails the check.  On the room
    server the sender alone receives one [error], nothing else is emitted
    (so no [piece-moved]) and no room file changes; on the single-board
    server the sender receives the [error], nothing else is emitted and the
    whole store, and with it the board, is left as it was. *)
Theorem move_without_authority_rejected :
  (forall (e : RoomServer.Env) (s : RoomServer.Server) (c : RoomServer.Conn)
          (d : PieceData),
     (TokenAuthority.hasAuthority (RoomServer.tokens s) (RoomServer.now e)
        (pieceId d) (RoomServer.sid c)).1 = false ->
     (exists msg,
        (RoomServer.move_piece e s c (Some d)).2
        = [(to_socket (RoomServer.sid c), error msg)])
     /\ RoomServer.rooms (RoomServer.move_piece e s c (Some d)).1
        = RoomServer.rooms s)
  /\ (forall (SS : SortedSet Snapshot) (r : Store) (now : Z) (sid : string)
             (d : PieceData),
        TokenService.hasAuthority r now (pieceId d) sid = false ->
        BoardServer.move_piece r now sid (Some d)
        = (r, [(to_socket sid, error "No authority to move this piece")])
        /\ BoardServer.board (BoardServer.move_piece r now sid (Some d)).1 now
           = BoardServer.board r now).
Proof.
  split.
  - apply RoomServerFacts.room_move_rejected.
  - intros SS r now sid d Hno.
    rewrite BoardServerFacts.board_move_rejected by done. done.
Qed.

(** Scenario B on both servers: Y, who holds no token, tries to move p1. *)
Lemma move_without_authority_rejected_witness :
  let d := mkPieceData "p1" 99 99 None in
  let p1 := mkPiece "p1" 10 20 None "X" None in
  let s := RoomServer.mkServer
             {["p1" := TokenAuthority.mkToken "X" 0]}
             {["R" := RoomServer.mkGame "R" [p1] 0]} in
  ((exists msg,
      (RoomServer.move_piece (RoomServer.mkEnv 1000 true) s
         (RoomServer.mkConn "Y" (Some "R")) (Some d)).2
      = [(to_socket "Y", error msg)])
   /\ RoomServer.rooms
        (RoomServer.move_piece (RoomServer.mkEnv 1000 true) s
           (RoomServer.mkConn "Y" (Some "R")) (Some d)).1
      = RoomServer.rooms s)
  /\ BoardServer.move_piece (empty_store true) 1000 "Y" (Some d)
     = (empty_store true,
        [(to_socket "Y", error "No authority to move this piece")]).
Proof.
  intros d p1 s. split.
  - apply (proj1 move_without_authority_rejected
             (RoomServer.mkEnv 1000 true) s
             (RoomServer.mkConn "Y" (Some "R")) d).
    vm_compute. reflexivity.
  - apply (proj2 move_without_authority_rejected list_sorted_set
             (empty_store true) 1000 "Y" d).
    vm_compute. reflexivity.
Defined.

(** C7 as stated fails on the single-board server: X was granted a token
    on "ghost", an id no piece of the board carries; the disconnect handler
    only visits the board's pieces, so X still passes the check on "ghost"
    afterwards. *)
Lemma offboard_token_survives_disconnect :
  ~ disconnect_leaves_no_token_statement.
Proof.
  intros [_ Hb].
  specialize (Hb list_sorted_set
                (TokenService.grantToken (empty_store true) 0 "ghost" "X").2
                1000 "X" "ghost").
  vm_compute in Hb. discriminate.
Qed.

(** C7, amended.  Room server: after the disconnect handler no entry of
    the token map is owned by the connection, every other entry is
    unchanged, and, for a connection that has joined a room, the emissions
    are exactly one [piece-unlocked] to that room for each piece whose token
    it owned, followed by [player-left]; in every reachable state of the
    server a token holder has joined a room, so the [piece-unlocked]
    emissions of a disconnect are exactly one per piece whose token the
    socket owns.  Single-board server: the handler visits the pieces of the
    current board only; afterwards the connection passes no check on any of
    them, the emissions are exactly one [piece-unlocked] to everybody for
    each distinct board piece id it had authority over, followed by
    [player-left], and a token on an id that is not on the board is left in
    place (to expire by its TTL). *)
Theorem disconnect_releases_tokens :
  (forall (s : RoomServer.Server) (c : RoomServer.Conn),
     (forall q,
        TokenAuthority.owns (RoomServer.tokens (RoomServer.disconnect s c).1)
          (RoomServer.sid c) q = false)
     /\ (forall q,
           TokenAuthority.owns (RoomServer.tokens s) (RoomServer.sid c) q
           = false ->
           RoomServer.tokens (RoomServer.disconnect s c).1 !! q
           = RoomServer.tokens s !! q)
     /\ (forall r, RoomServer.joined c r ->
           exists held : list string,
             NoDup held
             /\ (forall q, q ∈ held <->
                   TokenAuthority.owns (RoomServer.tokens s)
                     (RoomServer.sid c) q = true)
             /\ (RoomServer.disconnect s c).2
                = ((fun q => (to_room r, piece_unlocked q)) <$> held)
                  ++ [(to_room_others r (RoomServer.sid c),
                         player_left (RoomServer.sid c))]))
  /\ (forall (w : RoomServer.World) (uid : string) (room : option string),
        RoomServer.reachable w ->
        RoomServer.conns w !! uid = Some room ->
        exists held : list string,
          NoDup held
          /\ (forall q, q ∈ held <->
                TokenAuthority.owns
                  (RoomServer.tokens (RoomServer.server w)) uid q = true)
          /\ omap RoomServer.unlocked_id
               (RoomServer.disconnect (RoomServer.server w)
                  (RoomServer.mkConn uid room)).2
             = held)
  /\ (forall (SS : SortedSet Snapshot) (r : Store) (now : Z) (sid : string),
        (forall q, q ∈ id <$> BoardServer.board r now ->
           TokenService.hasAuthority (BoardServer.disconnect r now sid).1
             now q sid = false)
        /\ (forall q, q ∉ id <$> BoardServer.board r now ->
              strings (BoardServer.disconnect r now sid).1
                !! TokenService.tokenKey q
              = strings r !! TokenService.tokenKey q)
        /\ exists held : list string,
             NoDup held
             /\ (forall q, q ∈ held <->
                   q ∈ id <$> BoardServer.board r now
                   /\ TokenService.hasAuthority r now q sid = true)
             /\ (BoardServer.disconnect r now sid).2
                = ((fun q => (to_all, piece_unlocked q)) <$> held)
                  ++ [(to_others sid, player_left sid)]).
Proof.
  split; [|split].
  - intros s c.
    destruct (RoomServerFacts.room_disconnect_tokens s c) as (H1 & H2 & _).
    split; [done|]. split; [done|].
    intros r Hj. by apply RoomServerFacts.room_disconnect_emissions.
  - apply RoomServerFacts.reachable_disconnect_unlocks.
  - intros SS r now sid.
    destruct (BoardServerFacts.board_disconnect_spec r now sid)
      as (H1 & H2 & H3).
    split; [done|]. split; [|done]. intros q Hq. apply H2. by left.
Qed.

(** X holds p1 and p2, Y holds p3; X has joined room "R" and disconnects. *)
Lemma disconnect_releases_tokens_witness :
  let s := RoomServer.mkServer
             {["p1" := TokenAuthority.mkToken "X" 0;
               "p2" := TokenAuthority.mkToken "X" 5;
               "p3" := TokenAuthority.mkToken "Y" 7]} ∅ in
  let c := RoomServer.mkConn "X" (Some "R") in
  exists held : list string,
    NoDup held
    /\ (forall q, q ∈ held <->
          TokenAuthority.owns (RoomServer.tokens s) "X" q = true)
    /\ (RoomServer.disconnect s c).2
       = ((fun q => (to_room "R", piece_unlocked q)) <$> held)
         ++ [(to_room_others "R" "X", player_left "X")].
Proof.
  intros s c.
  apply (proj2 (proj2 (proj1 disconnect_releases_tokens s c)) "R").
  split; [reflexivity|discriminate].
Defined.

(** A run of the room server: X connects, joins room "R", takes "p1" and
    leaves; the room is told once that "p1" is unlocked. *)
Example room_run_disconnect :
  let e := RoomServer.mkEnv 1000 true in
  let w0 := RoomServer.mkWorld
              (RoomServer.mkServer ∅ {["R" := RoomServer.mkGame "R" [] 0]})
              ∅ in
  let w1 := (RoomServer.step e w0 (RoomServer.in_connect "X")).1 in
  let w2 := (RoomServer.step e w1
               (RoomServer.in_event "X"
                  (RoomServer.ev_join_room (Some "R")))).1 in
  let w3 := (RoomServer.step e w2
               (RoomServer.in_event "X"
                  (RoomServer.ev_request_token "p1"))).1 in
  (RoomServer.step e w3 (RoomServer.in_event "X" RoomServer.ev_disconnect)).2
  = [(to_room "R", piece_unlocked "p1");
     (to_room_others "R" "X", player_left "X")].
Proof. vm_compute. reflexivity. Qed.

(** A run of the single-board server: X adds "p1" (and so holds its
    token), also takes a token on "ghost", and leaves one second later:
    "p1" is released and announced once, the token on "ghost" stays. *)
Example board_run_disconnect :
  let r1 := (BoardServer.add_piece (empty_store true) 0 "X"
               (Some (mkPieceData "p1" 10 20 (Some "/a.png")))).1 in
  let r2 := (BoardServer.request_token r1 1 "X" "ghost").1 in
  (BoardServer.disconnect r2 1000 "X").2
  = [(to_all, piece_unlocked "p1"); (to_others "X", player_left "X")]
  /\ TokenService.hasAuthority (BoardServer.disconnect r2 1000 "X").1 1000
       "p1" "X" = false
  /\ TokenService.hasAuthority (BoardServer.disconnect r2 1000 "X").1 1000
       "ghost" "X" = true.
Proof. vm_compute. done. Qed.

(** C8, amended.  Single-board server: for an authorised move-piece whose
    id no piece of the board carries, [updatePiece] returns [false] and
    writes nothing, so the handler leaves the store and the board as they
    were and creates no piece (it still announces the move).  Room server:
    the handler appends a new piece with that id, the given position and
    asset, owned by the sender, to the room's pieces. *)
Theorem move_of_unknown_piece :
  (forall (SS : SortedSet Snapshot) (r : Store) (now : Z) (sid : string)
          (d : PieceData),
     TokenService.hasAuthority r now (pieceId d) sid = true ->
     findIndex (BoardServer.board r now) (pieceId d) = None ->
     updatePiece r now (pieceId d) (mkUpdates (Some (dx d)) (Some (dy d)))
       DEFAULT_GAME_ID = (false, r)
     /\ BoardServer.move_piece r now sid (Some d)
        = (r, [(to_all, piece_moved (pieceId d) (dx d) (dy d) sid)]))
  /\ (forall (e : RoomServer.Env) (s : RoomServer.Server)
             (c : RoomServer.Conn) (r : string) (d : PieceData)
             (game : RoomServer.Game),
        RoomServer.joined c r ->
        (TokenAuthority.hasAuthority (RoomServer.tokens s) (RoomServer.now e)
           (pieceId d) (RoomServer.sid c)).1 = true ->
        RoomServer.getRoom e s r = Some game ->
        findIndex (RoomServer.pieces game) (pieceId d) = None ->
        RoomServer.move_piece e s c (Some d)
        = (RoomServer.mkServer (RoomServer.tokens s)
             (<[RoomServer.roomCode game :=
                  RoomServer.mkGame (RoomServer.roomCode game)
                    (RoomServer.pieces game ++
                       [mkPiece (pieceId d) (dx d) (dy d) (dassetUrl d)
                          (RoomServer.sid c) None])
                    (RoomServer.gameCreatedAt game)]> (RoomServer.rooms s)),
           [(to_room r,
               piece_moved (pieceId d) (dx d) (dy d) (RoomServer.sid c))])).
Proof.
  split.
  - intros SS r now sid d Hok Hnone. split.
    + by apply BoardServerFacts.updatePiece_unknown.
    + by apply BoardServerFacts.board_move_unknown_noop.
  - intros. by apply RoomServerFacts.room_move_unknown_appends.
Qed.

(** X holds the token of "ghost", which is on no board, and moves it. *)
Lemma move_of_unknown_piece_witness :
  let d := mkPieceData "ghost" 5 7 None in
  let r := (TokenService.grantToken (empty_store true) 0 "ghost" "X").2 in
  updatePiece r 1000 "ghost" (mkUpdates (Some 5) (Some 7)) DEFAULT_GAME_ID
  = (false, r)
  /\ BoardServer.move_piece r 1000 "X" (Some d)
     = (r, [(to_all, piece_moved "ghost" 5 7 "X")]).
Proof.
  intros d r.
  apply (proj1 move_of_unknown_piece list_sorted_set r 1000 "X" d).
  - vm_compute. reflexivity.
  - vm_compute. reflexivity.
Defined.

(** C9: a drag-piece never changes the store (tokens, snapshots, current
    pointer and metadata are all as before, so the board is too).  When the
    sender passes the check, the only emission is [piece-dragged] to every
    other connection; when it does not, or when the payload is missing,
    nothing at all is emitted: no broadcast and no [error]. *)
Theorem drag_is_ephemeral (SS : SortedSet Snapshot) (r : Store) (now : Z)
    (sid : string) (data : option PieceData) :
  (BoardServer.drag_piece r now sid data).1 = r
  /\ BoardServer.board (BoardServer.drag_piece r now sid data).1 now
     = BoardServer.board r now
  /\ (BoardServer.drag_piece r now sid data).2
     = match data with
       | Some d =>
           if TokenService.hasAuthority r now (pieceId d) sid
           then [(to_others sid,
                    piece_dragged (pieceId d) (dx d) (dy d) sid)]
           else []
       | None => []
       end
  /\ Forall (fun em => is_error em.2 = false /\ em.1 = to_others sid)
       (BoardServer.drag_piece r now sid data).2.
Proof.
  unfold BoardServer.drag_piece. destruct data as [d|]; simpl.
  - destruct (TokenService.hasAuthority r now (pieceId d) sid); simpl;
      repeat split; repeat constructor.
  - repeat split; constructor.
Qed.

(** C10 as stated fails on the single-board server: while Redis rejects
    commands, [grantToken] returns [false] from its [catch] and the
    request-token handler emits [token-denied]. *)
Lemma token_denied_when_store_down : ~ never_token_denied_statement.
Proof.
  intros [_ Hb].
  specialize (Hb list_sorted_set (empty_store false) 0 "X"
                (BoardServer.ev_request_token "p1")).
  vm_compute in Hb. inversion Hb as [|? ? Hhd _]. discriminate.
Qed.

(** C10, amended.  The room server never emits [token-denied]: its grant
    cannot fail, and every request-token from a connection that has joined
    a room yields [token-granted] to the requester and [piece-locked] to
    the others in the room.  On the single-board server a request-token
    yields [token-granted] (and [piece-locked] to the others) whenever the
    Redis write succeeds and [token-denied], with no change of state, when
    it is rejected; no other event makes the server emit [token-denied]. *)
Theorem token_denied_only_on_store_failure :
  (forall (e : RoomServer.Env) (s : RoomServer.Server) (c : RoomServer.Conn)
          (ev : RoomServer.ClientEvent),
     never_denied (RoomServer.handle e s c ev).2)
  /\ (forall (e : RoomServer.Env) (s : RoomServer.Server)
             (c : RoomServer.Conn) (r p : string),
        RoomServer.joined c r ->
        (RoomServer.request_token e s c p).2
        = [(to_socket (RoomServer.sid c), token_granted p);
           (to_room_others r (RoomServer.sid c),
              piece_locked p (RoomServer.sid c))])
  /\ (forall (SS : SortedSet Snapshot) (r : Store) (now : Z)
             (sid p : string),
        (up r = true ->
         (BoardServer.request_token r now sid p).2
         = [(to_socket sid, token_granted p);
            (to_others sid, piece_locked p sid)])
        /\ (up r = false ->
            BoardServer.request_token r now sid p
            = (r, [(to_socket sid, token_denied p)])))
  /\ (forall (SS : SortedSet Snapshot) (r : Store) (now : Z) (sid : string)
             (ev : BoardServer.ClientEvent),
        (forall p, ev <> BoardServer.ev_request_token p) ->
        never_denied (BoardServer.handle r now sid ev).2).
Proof.
  split; [apply RoomServerFacts.room_never_denied|].
  split.
  { intros e s c r p Hj.
    by rewrite (RoomServerFacts.request_token_joined e s c r p Hj). }
  split.
  { intros SS r now sid p. split.
    - apply BoardServerFacts.board_request_token_up.
    - apply BoardServerFacts.board_request_token_down. }
  intros SS r now sid ev. apply BoardServerFacts.board_others_never_denied.
Qed.

(** Y, joined to room "R", asks for a piece X holds; and the same request
    on the single-board server with Redis up. *)
Lemma token_denied_only_on_store_failure_witness :
  (RoomServer.request_token (RoomServer.mkEnv 1000 true)
     (RoomServer.mkServer {["p1" := TokenAuthority.mkToken "X" 0]} ∅)
     (RoomServer.mkConn "Y" (Some "R")) "p1").2
  = [(to_socket "Y", token_granted "p1");
     (to_room_others "R" "Y", piece_locked "p1" "Y")]
  /\ (BoardServer.request_token (empty_store true) 1000 "Y" "p1").2
     = [(to_socket "Y", token_granted "p1");
        (to_others "Y", piece_locked "p1" "Y")].
Proof.
  split.
  - apply (proj1 (proj2 token_denied_only_on_store_failure)
             (RoomServer.mkEnv 1000 true)
             (RoomServer.mkServer {["p1" := TokenAuthority.mkToken "X" 0]} ∅)
             (RoomServer.mkConn "Y" (Some "R")) "R" "p1").
    split; [reflexivity|discriminate].
  - apply (proj1 (proj1 (proj2 (proj2 token_denied_only_on_store_failure))
                    list_sorted_set (empty_store true) 1000 "Y" "p1")).
    reflexivity.
Defined.

End SyncProtocol.

(** ** Further properties of the in-memory token authority *)

Module AuthorityLaws.
Import TokenAuthority TokenAuthorityFacts.

(** X1: lazy eviction cannot be observed by later checks.  As long as the
    clock does not run backwards, whatever an earlier check deleted would
    have been refused anyway: a check made after another check answers
    exactly as it would have without it, for every piece and caller. *)
Theorem eviction_unobservable (tokens : Tokens) (now now' : Z)
    (p c q c' : string) :
  now <= now' ->
  (hasAuthority (hasAuthority tokens now p c).2 now' q c').1
  = (hasAuthority tokens now' q c').1.
Proof.
  intros Hle. destruct (decide (q = p)) as [->|Hne].
  - unfold hasAuthority at 2. destruct (tokens !! p) as [t|] eqn:Hp; [|done].
    destruct (now - timestamp t >? 30000) eqn:Hexp; [|done].
    simpl. unfold hasAuthority. rewrite lookup_delete_eq, Hp.
    by replace (now' - timestamp t >? 30000) with true by lia.
  - apply hasAuthority_lookup_ext. by apply hasAuthority_frame.
Qed.

Lemma eviction_unobservable_witness :
  (hasAuthority (hasAuthority {["p1" := mkToken "X" 0]} 40000 "p1" "Y").2
     50000 "p1" "X").1
  = (hasAuthority {["p1" := mkToken "X" 0]} 50000 "p1" "X").1.
Proof.
  apply (eviction_unobservable {["p1" := mkToken "X" 0]} 40000 50000
           "p1" "Y" "p1" "X").
  lia.
Defined.

(** X2: a grant followed by the grantee's release removes the entry
    altogether, so whoever held the piece before the grant does not get it
    back and no connection passes a check on it afterwards; a release by
    anybody else is refused and leaves the grant in place. *)
Theorem grant_then_release (tokens : Tokens) (now : Z) (p c : string) :
  releaseToken (grantToken tokens now p c).2 p c = (true, delete p tokens)
  /\ (forall now' c',
        hasAuthority (releaseToken (grantToken tokens now p c).2 p c).2
          now' p c' = (false, delete p tokens))
  /\ (forall c', c' <> c ->
        releaseToken (grantToken tokens now p c).2 p c'
        = (false, (grantToken tokens now p c).2)).
Proof.
  assert (Hrel : releaseToken (grantToken tokens now p c).2 p c
                 = (true, delete p tokens)).
  { unfold releaseToken, grantToken. simpl. rewrite lookup_insert_eq. simpl.
    rewrite bool_decide_eq_true_2 by done. by rewrite delete_insert_eq. }
  split; [done|]. split.
  - intros now' c'. rewrite Hrel. simpl. unfold hasAuthority.
    by rewrite lookup_delete_eq.
  - intros c' Hc'. unfold releaseToken, grantToken. simpl.
    rewrite lookup_insert_eq. simpl.
    by rewrite bool_decide_eq_false_2 by congruence.
Qed.

End AuthorityLaws.

(** ** Further properties of the room server *)

Module RoomServerLaws.
Import Board Wire RoomServer TokenAuthorityFacts RoomServerFacts.

Lemma findIndex_Some (ps : list Piece) (pid : string) (i : nat) :
  findIndex ps pid = Some i ->
  exists p, ps !! i = Some p /\ id p = pid
            /\ forall j q, ps !! j = Some q -> (j < i)%nat -> id q <> pid.
Proof.
  unfold findIndex. intros Hf.
  destruct (list_find _ ps) as [[i' p]|] eqn:Hfind; [|done].
  simpl in Hf. injection Hf as ->.
  apply list_find_Some in Hfind as (Hp & Hid & Hbefore). exists p.
  split; [done|]. split; [done|]. intros j q Hq Hlt. by eapply Hbefore.
Qed.

Lemma findIndex_without (ps : list Piece) (pid : string) :
  findIndex (without ps pid) pid = None.
Proof.
  unfold findIndex, without.
  destruct (list_find _ _) as [[i p]|] eqn:Hfind; [|done].
  apply list_find_Some in Hfind as (Hp & Hid & _).
  apply list_elem_of_lookup_2, list_elem_of_filter in Hp as [Hne _]. done.
Qed.

Lemma without_absent (ps : list Piece) (pid : string) :
  findIndex ps pid = None -> without ps pid = ps.
Proof.
  unfold findIndex, without. intros Hnone.
  destruct (list_find _ ps) as [[i p]|] eqn:Hfind; [done|].
  apply list_find_None in Hfind. clear Hnone.
  induction Hfind as [|q l Hq _ IH]; [done|].
  rewrite filter_cons_True; [by rewrite IH|exact Hq].
Qed.

Lemma with_tokens_same (s : Server) : with_tokens s (tokens s) = s.
Proof. by destruct s. Qed.

(** X3: add-piece on the room server.  For a connection that has joined a
    room whose file can be read, the new piece (with the sender as owner)
    is appended to the room's pieces whether or not the id is already in
    use, the sender holds the piece's token from that instant, no other
    token changes, and the whole room is told [piece-added]. *)
Theorem room_add_piece_appends (e : Env) (s : Server) (c : Conn) (r : string)
    (d : PieceData) (game : Game) :
  joined c r ->
  getRoom e s r = Some game ->
  rooms (add_piece e s c (Some d)).1
  = <[roomCode game :=
        mkGame (roomCode game)
          (pieces game ++
             [mkPiece (pieceId d) (dx d) (dy d) (dassetUrl d) (sid c) None])
          (gameCreatedAt game)]> (rooms s)
  /\ (hasAuthority (tokens (add_piece e s c (Some d)).1) (now e) (pieceId d)
        (sid c)).1 = true
  /\ (forall q, q <> pieceId d ->
        tokens (add_piece e s c (Some d)).1 !! q = tokens s !! q)
  /\ (add_piece e s c (Some d)).2
     = [(to_room r,
           piece_added (pieceId d) (dx d) (dy d) (dassetUrl d) (sid c))].
Proof.
  intros Hj Hroom. unfold add_piece.
  rewrite (joined_truthy _ _ Hj). destruct Hj as [Hc _]. rewrite Hc, Hroom.
  unfold getRoom in Hroom. unfold saveRoom.
  destruct (diskOk e); [|done]. simpl.
  split; [done|]. split; [|split; [|done]].
  - unfold hasAuthority. rewrite lookup_insert_eq. simpl.
    replace (now e - now e >? 30000) with false by lia.
    simpl. by apply bool_decide_eq_true.
  - intros q Hq. by rewrite lookup_insert_ne.
Qed.

Lemma room_add_piece_appends_witness :
  let e := mkEnv 1000 true in
  let game := mkGame "R" [mkPiece "p1" 1 2 None "Y" None] 0 in
  let s := mkServer ∅ {["R" := game]} in
  let c := mkConn "X" (Some "R") in
  let d := mkPieceData "p1" 10 20 (Some "/a.png") in
  rooms (add_piece e s c (Some d)).1 !! "R"
  = Some (mkGame "R"
            [mkPiece "p1" 1 2 None "Y" None;
             mkPiece "p1" 10 20 (Some "/a.png") "X" None] 0).
Proof.
  intros e game s c d.
  rewrite (proj1 (room_add_piece_appends e s c "R" d game
                    ltac:(split; [reflexivity|discriminate])
                    ltac:(vm_compute; reflexivity))).
  apply lookup_insert_eq.
Defined.

(** X4: an authorised move-piece of an id that is on the board overwrites
    the coordinates of the first piece with that id and nothing else: the
    other pieces, the order and the piece's remaining fields are kept, the
    tokens are untouched and the room is told [piece-moved]. *)
Theorem room_move_updates_first (e : Env) (s : Server) (c : Conn) (r : string)
    (d : PieceData) (game : Game) (i : nat) :
  joined c r ->
  (hasAuthority (tokens s) (now e) (pieceId d) (sid c)).1 = true ->
  getRoom e s r = Some game ->
  findIndex (pieces game) (pieceId d) = Some i ->
  exists p,
    pieces game !! i = Some p
    /\ id p = pieceId d
    /\ (forall j q, pieces game !! j = Some q -> (j < i)%nat ->
          id q <> pieceId d)
    /\ move_piece e s c (Some d)
       = (mkServer (tokens s)
            (<[roomCode game :=
                 mkGame (roomCode game)
                   (<[i := mkPiece (id p) (dx d) (dy d) (assetUrl p)
                             (Board.owner p) (createdAt p)]> (pieces game))
                   (gameCreatedAt game)]> (rooms s)),
          [(to_room r, piece_moved (pieceId d) (dx d) (dy d) (sid c))]).
Proof.
  intros Hj Hok Hroom Hidx.
  destruct (findIndex_Some _ _ _ Hidx) as (p & Hp & Hid & Hfirst).
  exists p. split; [done|]. split; [done|]. split; [done|].
  unfold move_piece. rewrite (joined_truthy _ _ Hj).
  destruct Hj as [Hc _]. rewrite Hc.
  pose proof (hasAuthority_true_state _ _ _ _ Hok) as Hst.
  destruct (hasAuthority _ _ _ _) as [ok tk]. simpl in Hok, Hst. subst.
  simpl. rewrite with_tokens_same, Hroom.
  unfold moved_pieces. rewrite Hidx, Hp.
  unfold saveRoom, getRoom in *. by destruct (diskOk e).
Qed.

Lemma room_move_updates_first_witness :
  let e := mkEnv 1000 true in
  let p1 := mkPiece "p1" 1 2 None "Y" None in
  let p2 := mkPiece "p2" 3 4 None "Y" None in
  let game := mkGame "R" [p2; p1; p1] 0 in
  let s := mkServer {["p1" := mkToken "X" 0]} {["R" := game]} in
  let c := mkConn "X" (Some "R") in
  exists p,
    pieces game !! 1%nat = Some p
    /\ id p = "p1"
    /\ (forall j q, pieces game !! j = Some q -> (j < 1)%nat -> id q <> "p1")
    /\ move_piece e s c (Some (mkPieceData "p1" 10 20 None))
       = (mkServer (tokens s)
            (<["R" :=
                 mkGame "R"
                   (<[1%nat := mkPiece (id p) 10 20 (assetUrl p)
                                 (Board.owner p) (createdAt p)]> [p2; p1; p1])
                   0]> (rooms s)),
          [(to_room "R", piece_moved "p1" 10 20 "X")]).
Proof.
  intros e p1 p2 game s c.
  apply (room_move_updates_first e s c "R" (mkPieceData "p1" 10 20 None)
           game 1).
  - split; [reflexivity|discriminate].
  - vm_compute. reflexivity.
  - vm_compute. reflexivity.
  - vm_compute. reflexivity.
Defined.

(** X5: an authorised remove-piece takes every piece with that id off the
    board (not just the first), keeps the others in order, deletes the
    token, so that nobody passes a check on the id afterwards, and tells
    the room [piece-removed]. *)
Theorem room_remove_clears_id (e : Env) (s : Server) (c : Conn) (r : string)
    (pid : string) (game : Game) :
  joined c r ->
  (hasAuthority (tokens s) (now e) pid (sid c)).1 = true ->
  getRoom e s r = Some game ->
  remove_piece e s c pid
  = (mkServer (delete pid (tokens s))
       (<[roomCode game :=
            mkGame (roomCode game) (without (pieces game) pid)
              (gameCreatedAt game)]> (rooms s)),
     [(to_room r, piece_removed pid (sid c))])
  /\ findIndex (without (pieces game) pid) pid = None
  /\ (forall q, q ∈ without (pieces game) pid <->
                q ∈ pieces game /\ id q <> pid)
  /\ (forall now' c',
        (hasAuthority (tokens (remove_piece e s c pid).1) now' pid c').1
        = false).
Proof.
  intros Hj Hok Hroom.
  assert (Hrun : remove_piece e s c pid
                 = (mkServer (delete pid (tokens s))
                      (<[roomCode game :=
                           mkGame (roomCode game) (without (pieces game) pid)
                             (gameCreatedAt game)]> (rooms s)),
                    [(to_room r, piece_removed pid (sid c))])).
  { unfold remove_piece. rewrite (joined_truthy _ _ Hj).
    destruct Hj as [Hc _]. rewrite Hc.
    pose proof (hasAuthority_true_state _ _ _ _ Hok) as Hst.
    destruct (hasAuthority_true_inv _ _ _ _ Hok) as (t & Ht & Ho & _).
    destruct (hasAuthority _ _ _ _) as [ok tk]. simpl in Hok, Hst. subst ok tk.
    simpl. rewrite with_tokens_same, Hroom.
    unfold saveRoom, getRoom in *. destruct (diskOk e); [|done]. simpl.
    unfold releaseToken. rewrite Ht.
    by rewrite bool_decide_eq_true_2 by done. }
  split; [done|]. split; [apply findIndex_without|]. split.
  - intros q. unfold without. rewrite list_elem_of_filter. tauto.
  - intros now' c'. rewrite Hrun. simpl. unfold hasAuthority.
    by rewrite lookup_delete_eq.
Qed.

Lemma room_remove_clears_id_witness :
  let e := mkEnv 1000 true in
  let p1 := mkPiece "p1" 1 2 None "Y" None in
  let p2 := mkPiece "p2" 3 4 None "Y" None in
  let s := mkServer {["p1" := mkToken "X" 0]}
             {["R" := mkGame "R" [p1; p2; p1] 0]} in
  remove_piece e s (mkConn "X" (Some "R")) "p1"
  = (mkServer (delete "p1" (tokens s))
       (<["R" := mkGame "R" (without [p1; p2; p1] "p1") 0]> (rooms s)),
     [(to_room "R", piece_removed "p1" "X")]).
Proof.
  intros e p1 p2 s.
  apply (room_remove_clears_id e s (mkConn "X" (Some "R")) "R" "p1"
           (mkGame "R" [p1; p2; p1] 0)).
  - split; [reflexivity|discriminate].
  - vm_compute. reflexivity.
  - vm_compute. reflexivity.
Defined.

(** X6: join-room records the room before it looks for the room file.  A
    connection that asks for a room that does not exist is answered
    [Room not found], yet it counts as joined to that room from then on: its
    next request-token is granted and announced to that room. *)
Theorem join_missing_room_still_joins (e e' : Env) (s : Server) (c : Conn)
    (r p : string) :
  r <> "" ->
  getRoom e s r = None ->
  join_room e s c (Some r)
  = (mkConn (sid c) (Some r), [(to_socket (sid c), error "Room not found")])
  /\ joined (join_room e s c (Some r)).1 r
  /\ (request_token e' s (join_room e s c (Some r)).1 p).2
     = [(to_socket (sid c), token_granted p);
        (to_room_others r (sid c), piece_locked p (sid c))].
Proof.
  intros Hr Hroom.
  assert (Hrun : join_room e s c (Some r)
                 = (mkConn (sid c) (Some r),
                    [(to_socket (sid c), error "Room not found")])).
  { unfold join_room. simpl. rewrite bool_decide_eq_false_2 by done.
    by rewrite Hroom. }
  rewrite Hrun. simpl. split; [done|].
  assert (Hj : joined (mkConn (sid c) (Some r)) r) by by split.
  split; [done|]. by rewrite (request_token_joined e' s _ r p Hj).
Qed.

Lemma join_missing_room_still_joins_witness :
  let e := mkEnv 1000 true in
  let s := mkServer ∅ ∅ in
  let c := mkConn "X" None in
  (request_token e s (join_room e s c (Some "nowhere")).1 "p1").2
  = [(to_socket "X", token_granted "p1");
     (to_room_others "nowhere" "X", piece_locked "p1" "X")].
Proof.
  intros e s c.
  apply (join_missing_room_still_joins e e s c "nowhere" "p1").
  - discriminate.
  - reflexivity.
Defined.

(** X7: a connection that has not joined a room can do nothing but join.
    Each of its request-token, release-token, move-piece, add-piece and
    remove-piece events leaves tokens and room files exactly as they were
    and is answered by a single [error] to the sender. *)
Theorem unjoined_is_inert (e : Env) (s : Server) (c : Conn)
    (ev : ClientEvent) :
  falsy (currentRoom c) = true ->
  (forall code, ev <> ev_join_room code) ->
  ev <> ev_disconnect ->
  (handle e s c ev).1.1 = s
  /\ (handle e s c ev).1.2 = c
  /\ exists msg, (handle e s c ev).2 = [(to_socket (sid c), error msg)].
Proof.
  intros Hf Hjoin Hdis.
  destruct ev as [code|p|p|data|data|p|]; simpl.
  - by destruct (Hjoin code).
  - unfold request_token. destruct (currentRoom c) as [r|]; [|by eauto].
    rewrite Hf. by eauto.
  - unfold release_token. destruct (currentRoom c) as [r|]; [|by eauto].
    rewrite Hf. by eauto.
  - unfold move_piece. destruct data as [d|]; [|by eauto].
    destruct (currentRoom c) as [r|]; [|by eauto]. rewrite Hf. by eauto.
  - unfold add_piece. destruct data as [d|]; [|by eauto].
    destruct (currentRoom c) as [r|]; [|by eauto]. rewrite Hf. by eauto.
  - unfold remove_piece. destruct (currentRoom c) as [r|]; [|by eauto].
    rewrite Hf. by eauto.
  - done.
Qed.

Lemma unjoined_is_inert_witness :
  let e := mkEnv 1000 true in
  let s := mkServer {["p1" := mkToken "Y" 0]}
             {["R" := mkGame "R" [] 0]} in
  let c := mkConn "X" None in
  (handle e s c (ev_request_token "p1")).1.1 = s
  /\ (handle e s c (ev_request_token "p1")).1.2 = c
  /\ exists msg,
       (handle e s c (ev_request_token "p1")).2
       = [(to_socket "X", error msg)].
Proof.
  intros e s c.
  apply (unjoined_is_inert e s c (ev_request_token "p1")).
  - reflexivity.
  - discriminate.
  - discriminate.
Defined.

(** What an event does to the room files: nothing, or it rewrites the file
    of the sender's current room with a record of the same room code. *)
Lemma handle_rooms (e : Env) (s : Server) (c : Conn) (ev : ClientEvent) :
  rooms (handle e s c ev).1.1 = rooms s
  \/ exists r g ps,
       currentRoom c = Some r
       /\ rooms s !! r = Some g
       /\ rooms (handle e s c ev).1.1
          = <[roomCode g := mkGame (roomCode g) ps (gameCreatedAt g)]>
              (rooms s).
Proof.
  destruct ev as [code|p|p|data|data|p|]; simpl.
  - left. by destruct (join_room e s c code).
  - left. pose proof (request_token_rooms e s c p).
    by destruct (request_token e s c p).
  - left. pose proof (release_token_rooms s c p).
    by destruct (release_token s c p).
  - assert (Hm : rooms (move_piece e s c data).1 = rooms s
                 \/ exists r g ps,
                      currentRoom c = Some r /\ rooms s !! r = Some g
                      /\ rooms (move_piece e s c data).1
                         = <[roomCode g :=
                               mkGame (roomCode g) ps (gameCreatedAt g)]>
                             (rooms s)).
    { unfold move_piece. destruct data as [d|]; [|by left].
      destruct (currentRoom c) as [r|] eqn:Hc; [|by left].
      destruct (falsy (Some r)); [by left|].
      destruct (hasAuthority _ _ _ _) as [ok tk]. destruct ok; [|by left].
      simpl. unfold getRoom, saveRoom. simpl.
      destruct (diskOk e); [|by left].
      destruct (rooms s !! r) as [g|] eqn:Hg; [|by left].
      simpl. right. by eauto 10. }
    by destruct (move_piece e s c data).
  - assert (Hm : rooms (add_piece e s c data).1 = rooms s
                 \/ exists r g ps,
                      currentRoom c = Some r /\ rooms s !! r = Some g
                      /\ rooms (add_piece e s c data).1
                         = <[roomCode g :=
                               mkGame (roomCode g) ps (gameCreatedAt g)]>
                             (rooms s)).
    { unfold add_piece. destruct data as [d|]; [|by left].
      destruct (currentRoom c) as [r|] eqn:Hc; [|by left].
      destruct (falsy (Some r)); [by left|].
      unfold getRoom, saveRoom. destruct (diskOk e); [|by left].
      destruct (rooms s !! r) as [g|] eqn:Hg; [|by left].
      simpl. right. by eauto 10. }
    by destruct (add_piece e s c data).
  - assert (Hm : rooms (remove_piece e s c p).1 = rooms s
                 \/ exists r g ps,
                      currentRoom c = Some r /\ rooms s !! r = Some g
                      /\ rooms (remove_piece e s c p).1
                         = <[roomCode g :=
                               mkGame (roomCode g) ps (gameCreatedAt g)]>
                             (rooms s)).
    { unfold remove_piece.
      destruct (currentRoom c) as [r|] eqn:Hc; [|by left].
      destruct (falsy (Some r)); [by left|].
      destruct (hasAuthority _ _ _ _) as [ok tk]. destruct ok; [|by left].
      simpl. unfold getRoom, saveRoom. simpl.
      destruct (diskOk e); [|by left].
      destruct (rooms s !! r) as [g|] eqn:Hg; [|by left].
      simpl. destruct (releaseToken _ _ _) as [rel tk2]. simpl.
      right. by eauto 10. }
    by destruct (remove_piece e s c p).
  - left. pose proof (room_disconnect_tokens s c) as (_ & _ & Hr).
    by destruct (disconnect s c).
Qed.

(** X8: pieces do not leak between rooms.  When every room file holds the
    record of the room it is named after, no event of a connection changes
    the file of any room other than the one the connection is in, and the
    files stay well named. *)
Theorem rooms_isolate_pieces (e : Env) (s : Server) (c : Conn)
    (ev : ClientEvent) (other : string) :
  files_well_named s ->
  currentRoom c <> Some other ->
  rooms (handle e s c ev).1.1 !! other = rooms s !! other
  /\ files_well_named (handle e s c ev).1.1.
Proof.
  intros Hwn Hother.
  destruct (handle_rooms e s c ev) as [Hsame|(r & g & ps & Hc & Hg & Hnew)].
  - split; [by rewrite Hsame|]. intros k g'. rewrite Hsame. apply Hwn.
  - pose proof (Hwn r g Hg) as Hname. split.
    + rewrite Hnew, lookup_insert_ne; [done|]. congruence.
    + intros k g'. rewrite Hnew.
      intros [[<- <-]|[_ ?]]%lookup_insert_Some; [done|by apply Hwn].
Qed.

Lemma rooms_isolate_pieces_witness :
  let e := mkEnv 1000 true in
  let s := mkServer {["p1" := mkToken "X" 0]}
             {["A" := mkGame "A" [] 0;
               "B" := mkGame "B" [mkPiece "p1" 1 2 None "Y" None] 0]} in
  let c := mkConn "X" (Some "A") in
  let ev := ev_move_piece (Some (mkPieceData "p1" 10 20 None)) in
  rooms (handle e s c ev).1.1 !! "B" = rooms s !! "B"
  /\ files_well_named (handle e s c ev).1.1.
Proof.
  intros e s c ev. apply (rooms_isolate_pieces e s c ev "B").
  - intros k g Hk. simpl in Hk.
    apply lookup_insert_Some in Hk as [[<- <-]|[_ Hk]]; [done|].
    by apply lookup_singleton_Some in Hk as [<- <-].
  - discriminate.
Defined.

(** X9: in every state the room server can reach, each entry of the token
    map belongs to a socket that is still connected and has joined a room:
    tokens are only granted to joined sockets, a socket never goes back to
    having no room, and a disconnect takes the socket's tokens with it. *)
Theorem token_holders_are_joined (w : World) (p : string) (t : Token) :
  reachable w ->
  tokens (server w) !! p = Some t ->
  exists r, conns w !! owner t = Some (Some r) /\ r <> "".
Proof.
  intros Hreach. apply (reachable_holders_joined w Hreach).
Qed.

Lemma token_holders_are_joined_witness :
  let e := mkEnv 1000 true in
  let w0 := mkWorld (mkServer ∅ ∅) ∅ in
  let w1 := (step e w0 (in_connect "X")).1 in
  let w2 := (step e w1 (in_event "X" (ev_join_room (Some "R")))).1 in
  let w3 := (step e w2 (in_event "X" (ev_request_token "p1"))).1 in
  exists r, conns w3 !! "X" = Some (Some r) /\ r <> "".
Proof.
  intros e w0 w1 w2 w3.
  apply (token_holders_are_joined w3 "p1" (mkToken "X" 1000)).
  - do 3 apply reach_step. apply reach_start.
  - vm_compute. reflexivity.
Defined.

(** X10: [POST /api/rooms] is create-or-join.  It never alters a room that
    already exists (its pieces are kept and counted in the answer), it
    keeps the files well named, a missing or empty code is refused without
    any change, and with a working disk the room exists afterwards. *)
Theorem post_rooms_creates_or_joins (e : Env) (s : Server)
    (code : option string) :
  (forall k g, rooms s !! k = Some g ->
     rooms (post_rooms e s code).1 !! k = Some g)
  /\ tokens (post_rooms e s code).1 = tokens s
  /\ (files_well_named s -> files_well_named (post_rooms e s code).1)
  /\ (falsy code = true ->
      post_rooms e s code = (s, rooms_bad_request "Room code is required"))
  /\ (forall r g, code = Some r -> r <> "" -> getRoom e s r = Some g ->
        post_rooms e s code = (s, rooms_ok (roomCode g) (length (pieces g))))
  /\ (forall r, code = Some r -> r <> "" -> diskOk e = true ->
        rooms s !! r = None ->
        post_rooms e s code
        = (mkServer (tokens s) (<[r := mkGame r [] (now e)]> (rooms s)),
           rooms_ok r 0)).
Proof.
  unfold post_rooms. destruct code as [r|]; simpl.
  2: { repeat split; try done. }
  destruct (bool_decide (r = "")) eqn:Hr; simpl.
  { apply bool_decide_eq_true in Hr. repeat split; try done.
    all: intros; simplify_eq. }
  apply bool_decide_eq_false in Hr.
  unfold getRoom, saveRoom. destruct (diskOk e); simpl.
  - destruct (rooms s !! r) as [g|] eqn:Hg; simpl.
    + repeat split; try done; intros; by simplify_eq.
    + split; [|split; [done|split; [|split; [done|split]]]].
      * intros k g Hk. rewrite lookup_insert_ne; [done|]. congruence.
      * intros Hwn k g Hk. simpl in Hk.
        apply lookup_insert_Some in Hk as [[<- <-]|[_ ?]];
          [done|by apply Hwn].
      * intros; by simplify_eq.
      * intros; by simplify_eq.
  - repeat split; try done; intros; by simplify_eq.
Qed.

(** X11: when the room files cannot be read or written, no event changes
    them, and every move-piece, add-piece and remove-piece is answered by a
    single [error] to its sender instead of a broadcast. *)
Theorem disk_failure_is_reported (e : Env) (s : Server) (c : Conn)
    (ev : ClientEvent) :
  diskOk e = false ->
  rooms (handle e s c ev).1.1 = rooms s
  /\ ((exists d, ev = ev_move_piece d \/ ev = ev_add_piece d)
      \/ (exists p, ev = ev_remove_piece p) ->
      exists msg, (handle e s c ev).2 = [(to_socket (sid c), error msg)]).
Proof.
  intros Hdisk. split.
  - destruct (handle_rooms e s c ev) as [Hsame|(r & g & ps & Hc & Hg & Hnew)];
      [done|].
    destruct ev as [code|p|p|data|data|p|]; simpl in *.
    + by destruct (join_room e s c code).
    + pose proof (request_token_rooms e s c p).
      by destruct (request_token e s c p).
    + pose proof (release_token_rooms s c p).
      by destruct (release_token s c p).
    + assert (rooms (move_piece e s c data).1 = rooms s).
      { unfold move_piece, getRoom. rewrite Hdisk.
        destruct data as [d|]; [|done].
        destruct (currentRoom c); [|done]. destruct (falsy _); [done|].
        destruct (hasAuthority _ _ _ _) as [ok tk]. by destruct ok. }
      by destruct (move_piece e s c data).
    + assert (rooms (add_piece e s c data).1 = rooms s).
      { unfold add_piece, getRoom. rewrite Hdisk.
        destruct data as [d|]; [|done].
        destruct (currentRoom c); [|done]. by destruct (falsy _). }
      by destruct (add_piece e s c data).
    + assert (rooms (remove_piece e s c p).1 = rooms s).
      { unfold remove_piece, getRoom. rewrite Hdisk.
        destruct (currentRoom c); [|done]. destruct (falsy _); [done|].
        destruct (hasAuthority _ _ _ _) as [ok tk]. by destruct ok. }
      by destruct (remove_piece e s c p).
    + pose proof (room_disconnect_tokens s c) as (_ & _ & Hr).
      by destruct (disconnect s c).
  - intros [[d [-> | ->]]|[p ->]]; simpl.
    + assert (exists msg, (move_piece e s c d).2
                          = [(to_socket (sid c), error msg)]).
      { unfold move_piece, getRoom. rewrite Hdisk.
        destruct d as [d|]; [|by eauto].
        destruct (currentRoom c); [|by eauto].
        destruct (falsy _); [by eauto|].
        destruct (hasAuthority _ _ _ _) as [ok tk]. destruct ok; by eauto. }
      by destruct (move_piece e s c d).
    + assert (exists msg, (add_piece e s c d).2
                          = [(to_socket (sid c), error msg)]).
      { unfold add_piece, getRoom. rewrite Hdisk.
        destruct d as [d|]; [|by eauto].
        destruct (currentRoom c); [|by eauto].
        destruct (falsy _); by eauto. }
      by destruct (add_piece e s c d).
    + assert (exists msg, (remove_piece e s c p).2
                          = [(to_socket (sid c), error msg)]).
      { unfold remove_piece, getRoom. rewrite Hdisk.
        destruct (currentRoom c); [|by eauto].
        destruct (falsy _); [by eauto|].
        destruct (hasAuthority _ _ _ _) as [ok tk]. destruct ok; by eauto. }
      by destruct (remove_piece e s c p).
Qed.

Lemma disk_failure_is_reported_witness :
  let e := mkEnv 1000 false in
  let s := mkServer {["p1" := mkToken "X" 0]}
             {["R" := mkGame "R" [mkPiece "p1" 1 2 None "X" None] 0]} in
  let c := mkConn "X" (Some "R") in
  rooms (handle e s c (ev_remove_piece "p1")).1.1 = rooms s.
Proof.
  intros e s c.
  apply (disk_failure_is_reported e s c (ev_remove_piece "p1")).
  reflexivity.
Defined.

End RoomServerLaws.

(** ** Further properties of the Redis-backed services *)

Module StoreLaws.
Import Board Wire Redis GameService RedisLaws.
Import TokenService.

Section WithLawfulSortedSet.
Context `{SortedSet Snapshot} `{!SortedSetLaws Snapshot}.

Lemma tokenKey_not_game_key (p g suffix : string) :
  tokenKey p <> GAME_PREFIX +:+ g +:+ suffix.
Proof. unfold tokenKey, TOKEN_KEY_PREFIX, GAME_PREFIX. simpl. discriminate. Qed.

(** What the five commands of [saveGameState] leave behind when Redis
    serves them: the snapshot is in the game's sorted set with the
    timestamp as score, and the current pointer names it. *)
Lemma save_commands_up (r : Store) (now : Z) (st : GameState)
    (name : option string) (g : string) (manual : bool) :
  up r = true ->
  exists r' sid,
    saveGameState_commands r now st name g manual = Some r'
    /\ sid <> ""
    /\ (falsy name = false -> name = Some sid)
    /\ (falsy name = true -> sid = "state-" +:+ pretty now)
    /\ strings r' = <[currentKey g := (sid, None)]> (strings r)
    /\ zsets r'
       = <[statesKey g :=
             zset_add (default zset_empty (zsets r !! statesKey g)) now
               (mkSnapshot sid name st now manual)]> (zsets r)
    /\ up r' = true.
Proof.
  intros Hup. destruct r as [strs zs hs u]. simpl in Hup. subst u.
  unfold saveGameState_commands, zadd, set, exists_, hset. simpl.
  set (sid := if falsy name then "state-" +:+ pretty now
              else default "" name).
  assert (Hsid : sid <> "").
  { unfold sid. destruct name as [n|]; simpl; [|discriminate].
    case_bool_decide; [discriminate|done]. }
  assert (Hname : falsy name = false -> name = Some sid).
  { unfold sid. destruct name as [n|]; simpl; [|done]. by intros ->. }
  assert (Hauto : falsy name = true -> sid = "state-" +:+ pretty now).
  { unfold sid. by intros ->. }
  match goal with
  | |- context [negb ?b] => destruct b
  end; simpl; eexists _, sid; repeat split; done.
Qed.

Lemma scores_below_fresh (r : Store) (key : string) (bound : Z) :
  zsets r !! key = None -> scores_below r key bound.
Proof.
  intros Hnone x Hx. rewrite Hnone in Hx. simpl in Hx.
  rewrite zset_items_empty in Hx. by inversion Hx.
Qed.

(** The current state is read through the pointer and the sorted set of the
    game only. *)
Lemma getCurrentState_ext (r1 r2 : Store) (now : Z) (g : string) :
  up r1 = up r2 ->
  strings r1 !! currentKey g = strings r2 !! currentKey g ->
  zsets r1 !! statesKey g = zsets r2 !! statesKey g ->
  getCurrentState r1 now g = getCurrentState r2 now g.
Proof.
  intros Hup Hs Hz. unfold getCurrentState, get, zrevrange.
  by rewrite Hup, Hs, Hz.
Qed.

(** Reading through a pointer whose snapshot is listed first. *)
Lemma getCurrentState_pointed (r : Store) (now : Z) (g sid : string)
    (snap : Snapshot) (rest : list Snapshot) :
  up r = true ->
  strings r !! currentKey g = Some (sid, None) ->
  sid <> "" ->
  zset_revrange (default zset_empty (zsets r !! statesKey g)) = snap :: rest ->
  snap_id snap = sid ->
  getCurrentState r now g = snap_data snap.
Proof.
  intros Hup Hptr Hsid Hrev Hid. unfold getCurrentState, get, zrevrange.
  rewrite Hup, Hptr. simpl. rewrite bool_decide_eq_false_2 by done.
  rewrite Hrev. simpl. rewrite decide_True by congruence. done.
Qed.

(** A save that Redis serves, with a timestamp above every score already
    in the game's sorted set. *)
Lemma save_spec (r : Store) (now : Z) (st : GameState)
    (name : option string) (g : string) (manual : bool) :
  up r = true ->
  scores_below r (statesKey g) now ->
  exists r',
    saveGameState r now st name g manual = (true, r')
    /\ (forall now', getCurrentState r' now' g = st)
    /\ (forall key, key <> currentKey g ->
          strings r' !! key = strings r !! key)
    /\ up r' = true
    /\ (forall bound, now < bound -> scores_below r' (statesKey g) bound).
Proof.
  intros Hup Hfresh.
  destruct (save_commands_up r now st name g manual Hup)
    as (r' & sid & Hrun & Hsid & _ & _ & Hstr & Hzs & Hup').
  exists r'. unfold saveGameState. rewrite Hrun. split; [done|].
  split; [|split; [|split; [done|]]].
  - intros now'.
    destruct (zset_revrange_add_top
                (default zset_empty (zsets r !! statesKey g)) now
                (mkSnapshot sid name st now manual) Hfresh) as [rest Hrest].
    apply (getCurrentState_pointed r' now' g sid
             (mkSnapshot sid name st now manual) rest); try done.
    + rewrite Hstr. apply lookup_insert_eq.
    + rewrite Hzs, lookup_insert_eq. done.
  - intros key Hkey. rewrite Hstr. by apply lookup_insert_ne.
  - intros bound Hb x Hx. rewrite Hzs, lookup_insert_eq in Hx. simpl in Hx.
    apply zset_items_add in Hx as [->|Hx]; [done|].
    specialize (Hfresh x Hx). lia.
Qed.

Lemma save_keeps_tokens (r r' : Store) (g : string) :
  (forall key, key <> currentKey g -> strings r' !! key = strings r !! key) ->
  forall p, strings r' !! tokenKey p = strings r !! tokenKey p.
Proof.
  intros Hkeep p. apply Hkeep. unfold currentKey.
  apply tokenKey_not_game_key.
Qed.

(** X12: save and read back.  When Redis serves the commands and the
    timestamp is later than every snapshot already saved for the game,
    [saveGameState] succeeds and the game's current state, read at any
    later time, is exactly the state that was saved; no token is touched. *)
Theorem save_then_get (r : Store) (now : Z) (st : GameState)
    (name : option string) (g : string) (manual : bool) :
  up r = true ->
  scores_below r (statesKey g) now ->
  (saveGameState r now st name g manual).1 = true
  /\ (forall now',
        getGameState (saveGameState r now st name g manual).2 now' g = st)
  /\ (forall now' p c,
        hasAuthority (saveGameState r now st name g manual).2 now' p c
        = hasAuthority r now' p c).
Proof.
  intros Hup Hfresh.
  destruct (save_spec r now st name g manual Hup Hfresh)
    as (r' & -> & Hget & Hkeep & Hup' & _).
  simpl. split; [done|]. split; [done|].
  intros now' p c. apply BoardServerFacts.service_hasAuthority_ext.
  - congruence.
  - by apply (save_keeps_tokens r r' g).
Qed.

(** X13: [addPiece] appends.  Under the same conditions the board after
    [addPiece] is the board before with the new piece at the end; the id
    is not checked for uniqueness. *)
Theorem addPiece_appends (r : Store) (now : Z) (piece : Piece) (g : string) :
  up r = true ->
  scores_below r (statesKey g) now ->
  (addPiece r now piece g).1 = true
  /\ (forall now',
        getAllPieces (addPiece r now piece g).2 now' g
        = getAllPieces r now g ++ [piece]).
Proof.
  intros Hup Hfresh. unfold addPiece, getAllPieces.
  destruct (save_spec r now
              (mkGameState (pieces (getGameState r now g) ++ [piece]))
              None g false Hup Hfresh) as (r' & -> & Hget & _).
  simpl. split; [done|]. intros now'. unfold getGameState at 1.
  by rewrite Hget.
Qed.

(** X14: [updatePiece] on an id that is on the board merges the given
    coordinates into the first piece with that id and keeps everything
    else: the other pieces, their order, and the id, asset, owner and
    creation time of the piece itself. *)
Theorem updatePiece_merges_first (r : Store) (now : Z) (pid : string)
    (u : Updates) (g : string) (i : nat) :
  up r = true ->
  scores_below r (statesKey g) now ->
  findIndex (getAllPieces r now g) pid = Some i ->
  exists p,
    getAllPieces r now g !! i = Some p
    /\ id p = pid
    /\ (updatePiece r now pid u g).1 = true
    /\ (forall now',
          getAllPieces (updatePiece r now pid u g).2 now' g
          = <[i := mkPiece (id p) (default (x p) (ux u))
                     (default (y p) (uy u)) (assetUrl p) (Board.owner p)
                     (createdAt p)]> (getAllPieces r now g)).
Proof.
  intros Hup Hfresh Hidx. unfold getAllPieces in *.
  destruct (RoomServerLaws.findIndex_Some _ _ _ Hidx) as (p & Hp & Hid & _).
  exists p. split; [done|]. split; [done|].
  unfold updatePiece. rewrite Hidx, Hp.
  destruct (save_spec r now
              (mkGameState (<[i := merge p u]> (pieces (getGameState r now g))))
              None g false Hup Hfresh) as (r' & -> & Hget & _).
  simpl. split; [done|]. intros now'. unfold getGameState at 1.
  by rewrite Hget.
Qed.

(** X15: [removePiece] takes every piece with the id off the board and
    keeps the rest in order; on an id that is not on the board it still
    reports success and the board reads back unchanged (removal is
    idempotent). *)
Theorem removePiece_clears_id (r : Store) (now : Z) (pid g : string) :
  up r = true ->
  scores_below r (statesKey g) now ->
  (removePiece r now pid g).1 = true
  /\ (forall now',
        getAllPieces (removePiece r now pid g).2 now' g
        = without (getAllPieces r now g) pid)
  /\ (forall now', getPiece (removePiece r now pid g).2 now' pid g = None)
  /\ (findIndex (getAllPieces r now g) pid = None ->
      forall now',
        getAllPieces (removePiece r now pid g).2 now' g
        = getAllPieces r now g).
Proof.
  intros Hup Hfresh. unfold removePiece, getAllPieces, getPiece.
  destruct (save_spec r now
              (mkGameState (without (pieces (getGameState r now g)) pid))
              None g false Hup Hfresh) as (r' & -> & Hget & _).
  simpl. split; [done|]. unfold getGameState at 1 3 5. split; [|split].
  - intros now'. by rewrite Hget.
  - intros now'. rewrite Hget. simpl.
    pose proof (RoomServerLaws.findIndex_without
                  (pieces (getGameState r now g)) pid) as Hnone.
    unfold findIndex in Hnone.
    by destruct (list_find _ _).
  - intros Hnone now'. rewrite Hget. simpl.
    by apply RoomServerLaws.without_absent.
Qed.

(** X16: duplicate ids shadow.  [getPiece] answers with the first piece
    that carries the id, so after [addPiece] of an id that is already on
    the board the old piece is still the one found; a new id is found
    as added. *)
Theorem getPiece_finds_first (r : Store) (now : Z) (piece : Piece)
    (g : string) :
  up r = true ->
  scores_below r (statesKey g) now ->
  forall now',
    getPiece (addPiece r now piece g).2 now' (id piece) g
    = match getPiece r now (id piece) g with
      | Some old => Some old
      | None => Some piece
      end.
Proof.
  intros Hup Hfresh now'. unfold addPiece, getPiece.
  destruct (save_spec r now
              (mkGameState (pieces (getGameState r now g) ++ [piece]))
              None g false Hup Hfresh) as (r' & -> & Hget & _).
  simpl. unfold getGameState at 1. rewrite Hget. simpl.
  destruct (list_find _ (pieces (getGameState r now g))) as [[i p]|]
    eqn:Hfind.
  - by rewrite (list_find_app_l _ _ _ _ _ Hfind).
  - rewrite (list_find_app_r _ _ _ Hfind). simpl.
    by rewrite decide_True by done.
Qed.

(** X17: loading a saved state.  [switchToState] repoints the game at any
    id without checking it: it reports success whenever Redis serves the
    write.  If no snapshot carries the id the board then reads as empty;
    if the id belongs to a saved snapshot (the only one with that id, up
    to its data), the board reads as that snapshot. *)
Theorem switchToState_loads (r : Store) (now : Z) (sid g : string) :
  up r = true ->
  let saved := zset_revrange (default zset_empty (zsets r !! statesKey g)) in
  (switchToState r now sid g).1 = true
  /\ ((forall st, st ∈ saved -> snap_id st <> sid) ->
      forall now',
        getGameState (switchToState r now sid g).2 now' g = emptyState)
  /\ (forall snap,
        snap ∈ saved -> snap_id snap = sid -> sid <> "" ->
        (forall st, st ∈ saved -> snap_id st = sid ->
           snap_data st = snap_data snap) ->
        forall now',
          getGameState (switchToState r now sid g).2 now' g
          = snap_data snap).
Proof.
  intros Hup. destruct r as [strs zs hs u]. simpl in Hup. subst u.
  unfold switchToState, set, hset. simpl. split; [done|].
  unfold getGameState, getCurrentState, get, zrevrange. simpl.
  rewrite lookup_insert_eq. simpl.
  set (saved := zset_revrange (default zset_empty (zs !! statesKey g))).
  split.
  - intros Hnone now'. case_bool_decide; [done|].
    destruct (list_find _ saved) as [[i st]|] eqn:Hfind; [|done].
    apply list_find_Some in Hfind as (Hst & Hid & _).
    apply list_elem_of_lookup_2 in Hst. injection Hid as Hid.
    by destruct (Hnone st Hst).
  - intros snap Hin Hid Hsid Huniq now'.
    rewrite bool_decide_eq_false_2 by done.
    destruct (list_find _ saved) as [[i st]|] eqn:Hfind.
    + apply list_find_Some in Hfind as (Hst & Hid' & _).
      apply list_elem_of_lookup_2 in Hst. injection Hid' as Hid'.
      by apply Huniq.
    + apply list_find_None in Hfind.
      rewrite Forall_forall in Hfind. destruct (Hfind snap Hin).
      by rewrite Hid.
Qed.

(** X18: listing saved states.  [getGameStates] answers with snapshots of
    the game's sorted set in their newest-first order, none invented; with
    [manualOnly] every one of them is a manual save; a non-negative [limit]
    bounds their number; when Redis rejects the read the answer is empty;
    and right after a save the new snapshot heads the list. *)
Theorem getGameStates_lists (r : Store) (g : string) (limit : Z)
    (manualOnly : bool) :
  getGameStates r g limit manualOnly
    `sublist_of` zset_revrange (default zset_empty (zsets r !! statesKey g))
  /\ (manualOnly = true ->
      Forall (fun st => isManual st = true)
        (getGameStates r g limit manualOnly))
  /\ (0 <= limit ->
      (length (getGameStates r g limit manualOnly) <= Z.to_nat limit)%nat)
  /\ (up r = false -> getGameStates r g limit manualOnly = [])
  /\ (forall now st name manual,
        up r = true -> scores_below r (statesKey g) now -> 1 <= limit ->
        exists sid rest,
          getGameStates (saveGameState r now st name g manual).2 g limit false
          = mkSnapshot sid name st now manual :: rest).
Proof.
  unfold getGameStates, zrevrange.
  set (saved := zset_revrange (default zset_empty (zsets r !! statesKey g))).
  split; [|split; [|split; [|split]]].
  - destruct (up r); [|apply sublist_nil_l].
    unfold slice_to. etrans; [apply sublist_take|].
    destruct manualOnly; [apply sublist_filter|done].
  - intros ->. destruct (up r); [|constructor].
    unfold slice_to. apply Forall_take, Forall_forall.
    by intros st [? _]%list_elem_of_filter.
  - intros Hlim. destruct (up r); [|simpl; lia].
    unfold slice_to. replace (limit <? 0) with false by lia.
    rewrite length_take. lia.
  - by intros ->.
  - intros now st name manual Hup Hfresh Hlim.
    destruct (save_commands_up r now st name g manual Hup)
      as (r' & sid & Hrun & _ & _ & _ & _ & Hzs & Hup').
    unfold saveGameState. rewrite Hrun. simpl. rewrite Hup', Hzs.
    rewrite lookup_insert_eq. simpl.
    destruct (zset_revrange_add_top
                (default zset_empty (zsets r !! statesKey g)) now
                (mkSnapshot sid name st now manual) Hfresh) as [rest ->].
    unfold slice_to. replace (limit <? 0) with false by lia.
    destruct (Z.to_nat limit) as [|n] eqn:Hn; [lia|]. simpl. eauto.
Qed.

(** X19: [deleteGame] drops a game for good: when Redis serves the three
    deletions the game's board reads as empty and no saved state is
    listed, while no token changes hands. *)
Theorem deleteGame_empties (r : Store) (g : string) :
  up r = true ->
  (deleteGame r g).1 = true
  /\ (forall now, getGameState (deleteGame r g).2 now g = emptyState)
  /\ (forall limit manualOnly,
        getGameStates (deleteGame r g).2 g limit manualOnly = [])
  /\ (forall now p c,
        hasAuthority (deleteGame r g).2 now p c = hasAuthority r now p c).
Proof.
  intros Hup. destruct r as [strs zs hs u]. simpl in Hup. subst u.
  unfold deleteGame, del. simpl. split; [done|]. split; [|split].
  - intros now. unfold getGameState, getCurrentState, get. simpl.
    by rewrite lookup_delete_eq.
  - intros limit manualOnly. unfold getGameStates, zrevrange. simpl.
    assert (Hgone : delete (currentKey g)
                      (delete (statesKey g) (delete (metaKey g) zs))
                    !! statesKey g = None).
    { apply lookup_delete_None. right. apply lookup_delete_eq. }
    rewrite Hgone. simpl. rewrite zset_revrange_empty.
    unfold slice_to. destruct manualOnly; simpl; apply take_nil.
  - intros now p c. apply BoardServerFacts.service_hasAuthority_ext; [done|].
    simpl. unfold currentKey, statesKey, metaKey.
    by rewrite !lookup_delete_ne by (symmetry; apply tokenKey_not_game_key).
Qed.

(** X20: the Redis-backed grant and its expiry.  Whatever the keyspace
    holds, a served [grantToken] makes the caller the only one to pass the
    check on the piece, from then until 30 seconds have gone by; once more
    than 30 seconds have passed nobody passes it, without any release. *)
Theorem service_grant_expires (r : Store) (now : Z) (p c : string) :
  up r = true ->
  (grantToken r now p c).1 = true
  /\ (forall now', now' < now + 30000 ->
        hasAuthority (grantToken r now p c).2 now' p c = true)
  /\ (forall now' c', c' <> c ->
        hasAuthority (grantToken r now p c).2 now' p c' = false)
  /\ (forall now' c', now + 30000 < now' ->
        hasAuthority (grantToken r now p c).2 now' p c' = false).
Proof.
  intros Hup. unfold grantToken, hasAuthority, set_ex, get. rewrite Hup.
  simpl. rewrite lookup_insert_eq. unfold TOKEN_EXPIRY. simpl.
  replace (now + 30 * 1000) with (now + 30000) by lia.
  split; [done|]. split; [|split].
  - intros now' Hlt. replace (now' <=? now + 30000) with true by lia.
    by apply bool_decide_eq_true.
  - intros now' c' Hc'. destruct (now' <=? now + 30000);
      apply bool_decide_eq_false; congruence.
  - intros now' c' Hgt. replace (now' <=? now + 30000) with false by lia.
    by apply bool_decide_eq_false.
Qed.

(** Once the owner has released, nobody passes the check. *)
Lemma service_release_by_owner (r : Store) (now : Z) (p c : string) :
  hasAuthority r now p c = true ->
  forall now' c', hasAuthority (releaseToken r now p c).2 now' p c' = false.
Proof.
  unfold releaseToken, hasAuthority, get, del.
  destruct (up r) eqn:Hup; simpl; [|done].
  intros Ho%bool_decide_eq_true now' c'.
  rewrite bool_decide_eq_false_2 by (intros Hn; by apply Hn).
  simpl. rewrite lookup_delete_eq. by apply bool_decide_eq_false.
Qed.

(** X21: the Redis-backed release.  [releaseToken] succeeds exactly when
    the caller passes the check at that moment, so, unlike the in-memory
    authority, an expired token cannot be released; after a success nobody
    passes the check on the piece; after a refusal the store is as it
    was. *)
Theorem service_release_needs_authority (r : Store) (now : Z) (p c : string) :
  ((releaseToken r now p c).1 = true <-> hasAuthority r now p c = true)
  /\ ((releaseToken r now p c).1 = true ->
      forall now' c', hasAuthority (releaseToken r now p c).2 now' p c' = false)
  /\ ((releaseToken r now p c).1 = false -> (releaseToken r now p c).2 = r).
Proof.
  unfold releaseToken, hasAuthority, get, del.
  destruct (up r) eqn:Hup; simpl; [|by rewrite ?Hup].
  set (o := match strings r !! tokenKey p with
            | Some (v, d) => if live now d then Some v else None
            | None => None
            end).
  destruct (decide (o = Some c)) as [Ho|Ho].
  - rewrite bool_decide_eq_false_2 by (intros Hn; by apply Hn).
    rewrite bool_decide_eq_true_2 by done. simpl.
    split; [done|]. split; [|done].
    intros _ now' c'. rewrite lookup_delete_eq.
    by apply bool_decide_eq_false.
  - rewrite bool_decide_eq_true_2 by done.
    rewrite bool_decide_eq_false_2 by done. simpl.
    split; [done|]. split; done.
Qed.

Lemma grant_keeps_state (r : Store) (now now' : Z) (p c g : string) :
  getCurrentState (grantToken r now p c).2 now' g = getCurrentState r now' g.
Proof.
  unfold grantToken, set_ex. destruct (up r) eqn:Hup; [|done]. simpl.
  apply getCurrentState_ext; simpl; [done| |done].
  rewrite lookup_insert_ne; [done|]. apply tokenKey_not_game_key.
Qed.

Lemma release_keeps_state (r : Store) (now now' : Z) (p c g : string) :
  getCurrentState (releaseToken r now p c).2 now' g = getCurrentState r now' g.
Proof.
  unfold releaseToken, get, del. destruct (up r) eqn:Hup; [|done]. simpl.
  case_bool_decide; [done|]. simpl.
  apply getCurrentState_ext; simpl; [done| |].
  - rewrite lookup_delete_ne; [done|]. apply tokenKey_not_game_key.
  - rewrite lookup_delete_ne; [done|]. apply tokenKey_not_game_key.
Qed.

Lemma down_getGameState (r : Store) (now : Z) (g : string) :
  up r = false -> getGameState r now g = emptyState.
Proof.
  intros Hup. unfold getGameState, getCurrentState, get. by rewrite Hup.
Qed.

Lemma down_saveGameState (r : Store) now st name g manual :
  up r = false -> saveGameState r now st name g manual = (false, r).
Proof.
  intros Hup. unfold saveGameState, saveGameState_commands, zadd.
  by rewrite Hup.
Qed.

(** X22: when Redis rejects commands the single-board server fails
    closed, with one exception.  No event changes the store and no check
    passes, so move-piece and remove-piece are refused with an [error];
    the piece manager reports failure; but add-piece, which ignores those
    reports, still announces [piece-added] although nothing was stored. *)
Theorem redis_down_fails_closed (r : Store) (now : Z) (sid : string)
    (ev : BoardServer.ClientEvent) :
  up r = false ->
  (BoardServer.handle r now sid ev).1 = r
  /\ (forall p c, hasAuthority r now p c = false)
  /\ (forall piece pid u g,
        addPiece r now piece g = (false, r)
        /\ updatePiece r now pid u g = (false, r)
        /\ removePiece r now pid g = (false, r))
  /\ (forall d,
        (BoardServer.move_piece r now sid (Some d)).2
        = [(to_socket sid, error "No authority to move this piece")])
  /\ (forall p,
        (BoardServer.remove_piece r now sid p).2
        = [(to_socket sid, error "No authority to remove this piece")])
  /\ (forall d,
        (BoardServer.add_piece r now sid (Some d)).2
        = [(to_all,
              piece_added (pieceId d) (dx d) (dy d) (dassetUrl d) sid)]).
Proof.
  intros Hup.
  assert (Hno : forall p c, hasAuthority r now p c = false)
    by (intros; unfold hasAuthority, get; by rewrite Hup).
  assert (Hgrant : forall p c, grantToken r now p c = (false, r))
    by (intros; unfold grantToken, set_ex; by rewrite Hup).
  assert (Hrel : forall p c, releaseToken r now p c = (false, r))
    by (intros; unfold releaseToken, get; by rewrite Hup).
  assert (Hadd : forall piece g, addPiece r now piece g = (false, r))
    by (intros; unfold addPiece; by rewrite down_saveGameState).
  assert (Hupd : forall pid u g, updatePiece r now pid u g = (false, r)).
  { intros. unfold updatePiece. by rewrite down_getGameState. }
  assert (Hrem : forall pid g, removePiece r now pid g = (false, r))
    by (intros; unfold removePiece; by rewrite down_saveGameState).
  split; [|split; [done|split; [by auto|split; [|split]]]].
  - destruct ev as [|p|p|data|data|data|p|]; simpl.
    + done.
    + unfold BoardServer.request_token. by rewrite Hgrant.
    + unfold BoardServer.release_token. by rewrite Hrel.
    + unfold BoardServer.drag_piece. destruct data; [|done].
      by rewrite Hno.
    + unfold BoardServer.move_piece. destruct data; [|done].
      by rewrite Hno.
    + unfold BoardServer.add_piece. destruct data; [|done].
      by rewrite Hadd, Hgrant.
    + unfold BoardServer.remove_piece. by rewrite Hno.
    + unfold BoardServer.disconnect. by rewrite down_getGameState.
  - intros d. unfold BoardServer.move_piece. by rewrite Hno.
  - intros p. unfold BoardServer.remove_piece. by rewrite Hno.
  - intros d. unfold BoardServer.add_piece. by rewrite Hadd, Hgrant.
Qed.

(** X23: add-piece on the single-board server (scenario A).  When Redis
    serves the commands and the clock is past every saved snapshot, the
    board gains the piece at its end, owned by the sender and stamped with
    the time, the sender passes the check on it, and everybody is told
    [piece-added]. *)
Theorem board_add_piece_appends (r : Store) (now : Z) (sid : string)
    (d : PieceData) :
  up r = true ->
  scores_below r (statesKey DEFAULT_GAME_ID) now ->
  BoardServer.board (BoardServer.add_piece r now sid (Some d)).1 now
  = BoardServer.board r now
    ++ [mkPiece (pieceId d) (dx d) (dy d) (dassetUrl d) sid (Some now)]
  /\ hasAuthority (BoardServer.add_piece r now sid (Some d)).1 now
       (pieceId d) sid = true
  /\ (BoardServer.add_piece r now sid (Some d)).2
     = [(to_all, piece_added (pieceId d) (dx d) (dy d) (dassetUrl d) sid)].
Proof.
  intros Hup Hfresh. unfold BoardServer.add_piece, BoardServer.board.
  set (piece := mkPiece (pieceId d) (dx d) (dy d) (dassetUrl d) sid
                  (Some now)).
  unfold addPiece.
  destruct (save_spec r now
              (mkGameState
                 (pieces (getGameState r now DEFAULT_GAME_ID) ++ [piece]))
              None DEFAULT_GAME_ID false Hup Hfresh)
    as (r1 & -> & Hget & _ & Hup1 & _).
  pose proof (BoardServerFacts.service_grantToken_up r1 now (pieceId d) sid
                Hup1) as (_ & _ & Hok).
  pose proof (grant_keeps_state r1 now now (pieceId d) sid DEFAULT_GAME_ID)
    as Hkeep.
  destruct (grantToken r1 now (pieceId d) sid) as [granted r2].
  simpl in *. split; [|done].
  unfold getGameState. by rewrite Hkeep, Hget.
Qed.

(** X24: an authorised remove-piece on the single-board server takes
    every piece with the id off the board, releases the token, so that
    nobody passes a check on the id afterwards, and tells everybody
    [piece-removed]. *)
Theorem board_remove_clears_id (r : Store) (now : Z) (sid pid : string) :
  up r = true ->
  scores_below r (statesKey DEFAULT_GAME_ID) now ->
  hasAuthority r now pid sid = true ->
  BoardServer.board (BoardServer.remove_piece r now sid pid).1 now
  = without (BoardServer.board r now) pid
  /\ (forall now' c,
        hasAuthority (BoardServer.remove_piece r now sid pid).1 now' pid c
        = false)
  /\ (BoardServer.remove_piece r now sid pid).2
     = [(to_all, piece_removed pid sid)].
Proof.
  intros Hup Hfresh Hok. unfold BoardServer.remove_piece, BoardServer.board.
  rewrite Hok. simpl. unfold removePiece.
  destruct (save_spec r now
              (mkGameState
                 (without (pieces (getGameState r now DEFAULT_GAME_ID)) pid))
              None DEFAULT_GAME_ID false Hup Hfresh)
    as (r1 & -> & Hget & Hkeep & Hup1 & _).
  assert (Hok1 : hasAuthority r1 now pid sid = true).
  { rewrite <-Hok. apply BoardServerFacts.service_hasAuthority_ext;
      [congruence|]. by apply (save_keeps_tokens r r1 DEFAULT_GAME_ID). }
  pose proof (service_release_by_owner r1 now pid sid Hok1) as Hafter.
  pose proof (release_keeps_state r1 now now pid sid DEFAULT_GAME_ID)
    as Hstate.
  destruct (releaseToken r1 now pid sid) as [rel r2]. simpl in *.
  split; [|done]. unfold getGameState. by rewrite Hstate, Hget.
Qed.

(** X25: an authorised move-piece of an id that is on the board, on the
    single-board server: the first piece with that id gets the new
    coordinates, every other piece and field is kept, the sender keeps its
    token, and everybody is told [piece-moved]. *)
Theorem board_move_updates_first (r : Store) (now : Z) (sid : string)
    (d : PieceData) (i : nat) :
  up r = true ->
  scores_below r (statesKey DEFAULT_GAME_ID) now ->
  hasAuthority r now (pieceId d) sid = true ->
  findIndex (BoardServer.board r now) (pieceId d) = Some i ->
  exists p,
    BoardServer.board r now !! i = Some p
    /\ id p = pieceId d
    /\ BoardServer.board (BoardServer.move_piece r now sid (Some d)).1 now
       = <[i := mkPiece (id p) (dx d) (dy d) (assetUrl p) (Board.owner p)
                  (createdAt p)]> (BoardServer.board r now)
    /\ hasAuthority (BoardServer.move_piece r now sid (Some d)).1 now
         (pieceId d) sid = true
    /\ (BoardServer.move_piece r now sid (Some d)).2
       = [(to_all, piece_moved (pieceId d) (dx d) (dy d) sid)].
Proof.
  intros Hup Hfresh Hok Hidx. unfold BoardServer.board in *.
  destruct (RoomServerLaws.findIndex_Some _ _ _ Hidx) as (p & Hp & Hid & _).
  exists p. split; [done|]. split; [done|].
  unfold BoardServer.move_piece. rewrite Hok. simpl.
  unfold updatePiece. rewrite Hidx, Hp.
  destruct (save_spec r now
              (mkGameState
                 (<[i := merge p (mkUpdates (Some (dx d)) (Some (dy d)))]>
                    (pieces (getGameState r now DEFAULT_GAME_ID))))
              None DEFAULT_GAME_ID false Hup Hfresh)
    as (r1 & -> & Hget & Hkeep & Hup1 & _).
  simpl. split; [|split; [|done]].
  - unfold getGameState at 1. by rewrite Hget.
  - rewrite <-Hok. apply BoardServerFacts.service_hasAuthority_ext;
      [congruence|]. by apply (save_keeps_tokens r r1 DEFAULT_GAME_ID).
Qed.

End WithLawfulSortedSet.

(** *** The properties above at concrete stores *)

Import ListSortedSet LawfulListSortedSet.

(** An empty store; a store whose board holds "p1", saved at time 0; and
    the same with X holding the token of "p1", granted at time 1. *)
Local Abbreviation store0 := (empty_store true).
Local Abbreviation piece1 := (mkPiece "p1" 10 20 (Some "/a.png") "X" (Some 0)).
Local Abbreviation store1 := (addPiece store0 0 piece1 DEFAULT_GAME_ID).2.
Local Abbreviation store2 := (grantToken store1 1 "p1" "X").2.

Lemma store0_fresh (bound : Z) :
  scores_below store0 (statesKey DEFAULT_GAME_ID) bound.
Proof. by apply scores_below_fresh. Qed.

Lemma store1_fresh : scores_below store1 (statesKey DEFAULT_GAME_ID) 5.
Proof.
  intros x Hx. vm_compute in Hx.
  apply list_elem_of_singleton in Hx. subst x. simpl. lia.
Qed.

Lemma store2_fresh : scores_below store2 (statesKey DEFAULT_GAME_ID) 5.
Proof.
  intros x Hx. vm_compute in Hx.
  apply list_elem_of_singleton in Hx. subst x. simpl. lia.
Qed.

Lemma save_then_get_witness :
  getGameState
    (saveGameState store0 7 (mkGameState [piece1]) (Some "opening")
       DEFAULT_GAME_ID true).2 100 DEFAULT_GAME_ID
  = mkGameState [piece1].
Proof.
  apply (proj1 (proj2 (save_then_get store0 7 (mkGameState [piece1])
                         (Some "opening") DEFAULT_GAME_ID true
                         eq_refl (store0_fresh 7)))).
Defined.

Lemma addPiece_appends_witness :
  (addPiece store1 5 (mkPiece "p2" 1 2 None "Y" (Some 5)) DEFAULT_GAME_ID).1
  = true.
Proof.
  apply (addPiece_appends store1 5 (mkPiece "p2" 1 2 None "Y" (Some 5))
           DEFAULT_GAME_ID).
  - reflexivity.
  - apply store1_fresh.
Defined.

Lemma updatePiece_merges_first_witness :
  exists p,
    getAllPieces store1 5 DEFAULT_GAME_ID !! 0%nat = Some p
    /\ id p = "p1"
    /\ (updatePiece store1 5 "p1" (mkUpdates (Some 30) None)
          DEFAULT_GAME_ID).1 = true
    /\ (forall now',
          getAllPieces
            (updatePiece store1 5 "p1" (mkUpdates (Some 30) None)
               DEFAULT_GAME_ID).2 now' DEFAULT_GAME_ID
          = <[0%nat := mkPiece (id p) (default (x p) (Some 30))
                         (default (y p) None) (assetUrl p) (Board.owner p)
                         (createdAt p)]>
              (getAllPieces store1 5 DEFAULT_GAME_ID)).
Proof.
  apply (updatePiece_merges_first store1 5 "p1" (mkUpdates (Some 30) None)
           DEFAULT_GAME_ID 0).
  - reflexivity.
  - apply store1_fresh.
  - vm_compute. reflexivity.
Defined.

Lemma removePiece_clears_id_witness :
  (removePiece store1 5 "p1" DEFAULT_GAME_ID).1 = true.
Proof.
  apply (removePiece_clears_id store1 5 "p1" DEFAULT_GAME_ID).
  - reflexivity.
  - apply store1_fresh.
Defined.

Lemma getPiece_finds_first_witness :
  getPiece
    (addPiece store1 5 (mkPiece "p1" 1 2 None "Y" (Some 5))
       DEFAULT_GAME_ID).2 9 "p1" DEFAULT_GAME_ID
  = match getPiece store1 5 "p1" DEFAULT_GAME_ID with
    | Some old => Some old
    | None => Some (mkPiece "p1" 1 2 None "Y" (Some 5))
    end.
Proof.
  apply (getPiece_finds_first store1 5 (mkPiece "p1" 1 2 None "Y" (Some 5))
           DEFAULT_GAME_ID eq_refl store1_fresh 9).
Defined.

Lemma switchToState_loads_witness :
  (switchToState store1 5 "no-such-state" DEFAULT_GAME_ID).1 = true.
Proof.
  apply (switchToState_loads store1 5 "no-such-state" DEFAULT_GAME_ID).
  reflexivity.
Defined.

Lemma deleteGame_empties_witness :
  (deleteGame store1 DEFAULT_GAME_ID).1 = true.
Proof.
  apply (deleteGame_empties store1 DEFAULT_GAME_ID). reflexivity.
Defined.

Lemma service_grant_expires_witness :
  (grantToken store1 1 "p1" "X").1 = true.
Proof.
  apply (service_grant_expires store1 1 "p1" "X"). reflexivity.
Defined.

Lemma redis_down_fails_closed_witness :
  (BoardServer.handle (empty_store false) 5 "X"
     (BoardServer.ev_add_piece (Some (mkPieceData "p1" 1 2 None)))).1
  = empty_store false.
Proof.
  apply (redis_down_fails_closed (empty_store false) 5 "X"
           (BoardServer.ev_add_piece (Some (mkPieceData "p1" 1 2 None)))).
  reflexivity.
Defined.

Lemma board_add_piece_appends_witness :
  BoardServer.board
    (BoardServer.add_piece store1 5 "Y" (Some (mkPieceData "p2" 1 2 None))).1
    5
  = BoardServer.board store1 5 ++ [mkPiece "p2" 1 2 None "Y" (Some 5)].
Proof.
  apply (board_add_piece_appends store1 5 "Y" (mkPieceData "p2" 1 2 None)).
  - reflexivity.
  - apply store1_fresh.
Defined.

Lemma board_remove_clears_id_witness :
  BoardServer.board (BoardServer.remove_piece store2 5 "X" "p1").1 5
  = without (BoardServer.board store2 5) "p1".
Proof.
  apply (board_remove_clears_id store2 5 "X" "p1").
  - reflexivity.
  - apply store2_fresh.
  - vm_compute. reflexivity.
Defined.

Lemma board_move_updates_first_witness :
  exists p,
    BoardServer.board store2 5 !! 0%nat = Some p
    /\ id p = "p1"
    /\ BoardServer.board
         (BoardServer.move_piece store2 5 "X"
            (Some (mkPieceData "p1" 99 98 None))).1 5
       = <[0%nat := mkPiece (id p) 99 98 (assetUrl p) (Board.owner p)
                      (createdAt p)]> (BoardServer.board store2 5)
    /\ hasAuthority
         (BoardServer.move_piece store2 5 "X"
            (Some (mkPieceData "p1" 99 98 None))).1 5 "p1" "X" = true
    /\ (BoardServer.move_piece store2 5 "X"
          (Some (mkPieceData "p1" 99 98 None))).2
       = [(to_all, piece_moved "p1" 99 98 "X")].
Proof.
  apply (board_move_updates_first store2 5 "X"
           (mkPieceData "p1" 99 98 None) 0).
  - reflexivity.
  - apply store2_fresh.
  - vm_compute. reflexivity.
  - vm_compute. reflexivity.
Defined.

(** The same runs, computed: X adds "p1", Y adds a second "p1"; a lookup
    still finds X's piece, a move by the token holder changes X's piece
    only, and a removal takes both. *)
Example board_run_duplicates :
  let r2 := (BoardServer.add_piece store1 5 "Y"
               (Some (mkPieceData "p1" 1 2 None))).1 in
  let moved := (BoardServer.move_piece r2 6 "Y"
                  (Some (mkPieceData "p1" 50 60 None))).1 in
  let removed := (BoardServer.remove_piece moved 7 "Y" "p1").1 in
  getPiece r2 6 "p1" DEFAULT_GAME_ID = Some piece1
  /\ BoardServer.board moved 7
     = [mkPiece "p1" 50 60 (Some "/a.png") "X" (Some 0);
        mkPiece "p1" 1 2 None "Y" (Some 5)]
  /\ BoardServer.board removed 8 = [].
Proof. vm_compute. done. Qed.

End StoreLaws.

(** ** Further properties of the handlers of both servers *)

Module HandlerLaws.
Import Board Wire Redis GameService.
Import TokenAuthorityFacts RoomServerFacts.

Section WithSortedSet.
Context `{SortedSet Snapshot}.

(** Releasing on behalf of one connection never changes what another
    connection's check answers. *)
Lemma release_keeps_others (r : Store) (now : Z) (k sid q c : string) :
  c <> sid ->
  TokenService.hasAuthority (TokenService.releaseToken r now k sid).2 now q c
  = TokenService.hasAuthority r now q c.
Proof.
  intros Hc. unfold TokenService.releaseToken, TokenService.hasAuthority,
    get, del.
  destruct (up r) eqn:Hup; simpl; [|by rewrite Hup].
  case_bool_decide as Ho; simpl; [by rewrite Hup|].
  destruct (decide (q = k)) as [->|Hne].
  - rewrite lookup_delete_eq, Ho.
    rewrite !bool_decide_eq_false_2; [done|congruence|done].
  - rewrite lookup_delete_ne; [done|].
    intros Heq%BoardServerFacts.tokenKey_inj. done.
Qed.

(** X26: a disconnect on the single-board server costs nobody else
    anything: the board reads as before, and every check of every other
    connection answers as before. *)
Theorem board_disconnect_spares_others (r : Store) (now : Z)
    (sid : string) :
  BoardServer.board (BoardServer.disconnect r now sid).1 now
  = BoardServer.board r now
  /\ (forall q c, c <> sid ->
        TokenService.hasAuthority (BoardServer.disconnect r now sid).1 now q c
        = TokenService.hasAuthority r now q c).
Proof.
  unfold BoardServer.disconnect.
  rewrite BoardServerFacts.board_disconnect_fold_sweep. simpl. split.
  - apply (sweep_frame_on _ _ (fun r : Store => BoardServer.board r now)).
    intros r' k _. unfold BoardServer.board, getGameState.
    by rewrite StoreLaws.release_keeps_state.
  - intros q c Hc.
    apply (sweep_frame_on _ _
             (fun r : Store => TokenService.hasAuthority r now q c)).
    intros r' k _. by apply release_keeps_others.
Qed.

(** X27: remove-piece without authority.  On both servers a remove-piece
    from a connection that fails the check is answered by a single [error]
    to the sender and removes nothing: the room files, respectively the
    whole store, are as before. *)
Theorem remove_without_authority_rejected :
  (forall (e : RoomServer.Env) (s : RoomServer.Server) (c : RoomServer.Conn)
          (p : string),
     (TokenAuthority.hasAuthority (RoomServer.tokens s) (RoomServer.now e) p
        (RoomServer.sid c)).1 = false ->
     (exists msg,
        (RoomServer.remove_piece e s c p).2
        = [(to_socket (RoomServer.sid c), error msg)])
     /\ RoomServer.rooms (RoomServer.remove_piece e s c p).1
        = RoomServer.rooms s)
  /\ (forall (r : Store) (now : Z) (sid p : string),
        TokenService.hasAuthority r now p sid = false ->
        BoardServer.remove_piece r now sid p
        = (r, [(to_socket sid, error "No authority to remove this piece")])).
Proof.
  split.
  - intros e s c p Hno. unfold RoomServer.remove_piece.
    destruct (RoomServer.currentRoom c) as [r|]; [|by eauto].
    destruct (falsy (Some r)); [by eauto|].
    destruct (TokenAuthority.hasAuthority _ _ _ _) as [ok tk].
    simpl in Hno. subst ok. simpl. eauto.
  - intros r now sid p Hno. unfold BoardServer.remove_piece. by rewrite Hno.
Qed.

End WithSortedSet.

Import ListSortedSet.

Lemma remove_without_authority_rejected_witness :
  BoardServer.remove_piece (empty_store true) 5 "Y" "p1"
  = (empty_store true,
     [(to_socket "Y", error "No authority to remove this piece")]).
Proof.
  apply (proj2 remove_without_authority_rejected (empty_store true) 5 "Y"
           "p1").
  reflexivity.
Defined.

End HandlerLaws.
